(** * pdist: pairwise Minkowski distance operator (host tiling + device kernel)

    A shallow embedding of
      - [PdistOp/op_host/pdist.cpp]   ([TilingFunc], the tiling planner),
      - [PdistOp/op_kernel/pdist.cpp] ([KernelPdist], the per-core engine),
      - [TestPdist/main.cpp]          ([cpu_pdist], the CPU golden reference),
    and the properties of the design document checked against it.

    Conventions.
      - [uint32_t] / [uint64_t] values are integers in [Z]; every arithmetic
        operation of the source is followed by its wrap-around ([wrap32],
        [wrap64]).
      - [float] values are elements of [fp]: a real number or one of the
        IEEE-754 special values.  Rounding is not modelled, nor is the
        overflow or underflow of a finite result.
      - Global memory is a list of elements; a bulk read outside of it is a
        fault of the model ([OutOfBounds]). *)

From Stdlib Require Import ZArith List Lia Bool Reals Lra Psatz.
Import ListNotations.

Local Open Scope Z_scope.

(* ------------------------------------------------------------------ *)
(** ** Machine integers *)

Module U.

Definition wrap32 (z : Z) : Z := z mod 2 ^ 32.
Definition wrap64 (z : Z) : Z := z mod 2 ^ 64.

Definition is_u32 (z : Z) : Prop := 0 <= z < 2 ^ 32.

End U.
Import U.

(* ------------------------------------------------------------------ *)
(** ** Floating-point values

    [p == 1.0f], [Adds], [Ln], ... of the kernel work on [float].  A value
    is a real number or a special value; the operations follow IEEE-754 on
    the special values and are exact on the reals. *)

Inductive fp : Type :=
| Fin (x : R)
| PInf
| NInf
| NaN.

Module F.

Local Open Scope R_scope.

Definition zero : fp := Fin 0.
Definition one : fp := Fin 1.
Definition two : fp := Fin 2.

(** the literal [1e-20f] *)
Definition eps : R := / 10 ^ 20.
Definition epsf : fp := Fin eps.

Definition neg (a : fp) : fp :=
  match a with
  | Fin x => Fin (- x)
  | PInf => NInf
  | NInf => PInf
  | NaN => NaN
  end.

Definition add (a b : fp) : fp :=
  match a, b with
  | NaN, _ | _, NaN => NaN
  | Fin x, Fin y => Fin (x + y)
  | PInf, NInf | NInf, PInf => NaN
  | PInf, _ | _, PInf => PInf
  | NInf, _ | _, NInf => NInf
  end.

Definition sub (a b : fp) : fp := add a (neg b).

Definition abs (a : fp) : fp :=
  match a with
  | Fin x => Fin (Rabs x)
  | PInf | NInf => PInf
  | NaN => NaN
  end.

(** sign of a real: [Lt] negative, [Eq] zero, [Gt] positive *)
Definition sgn (x : R) : comparison :=
  match total_order_T x 0 with
  | inleft (left _) => Lt
  | inleft (right _) => Eq
  | inright _ => Gt
  end.

(** an infinity scaled by a value of sign [s] *)
Definition scale_inf (positive : bool) (s : comparison) : fp :=
  match s with
  | Eq => NaN
  | Gt => if positive then PInf else NInf
  | Lt => if positive then NInf else PInf
  end.

Definition mul (a b : fp) : fp :=
  match a, b with
  | NaN, _ | _, NaN => NaN
  | Fin x, Fin y => Fin (x * y)
  | PInf, Fin y => scale_inf true (sgn y)
  | NInf, Fin y => scale_inf false (sgn y)
  | Fin x, PInf => scale_inf true (sgn x)
  | Fin x, NInf => scale_inf false (sgn x)
  | PInf, PInf | NInf, NInf => PInf
  | PInf, NInf | NInf, PInf => NInf
  end.

Definition sqrt (a : fp) : fp :=
  match a with
  | Fin x => match sgn x with Lt => NaN | _ => Fin (R_sqrt.sqrt x) end
  | PInf => PInf
  | NInf | NaN => NaN
  end.

Definition ln (a : fp) : fp :=
  match a with
  | Fin x => match sgn x with
             | Lt => NaN
             | Eq => NInf
             | Gt => Fin (Rpower.ln x)
             end
  | PInf => PInf
  | NInf | NaN => NaN
  end.

Definition exp (a : fp) : fp :=
  match a with
  | Fin x => Fin (Rtrigo_def.exp x)
  | PInf => PInf
  | NInf => Fin 0
  | NaN => NaN
  end.

(** [a == b] on floats: a NaN is equal to nothing *)
Definition eqb (a b : fp) : bool :=
  match a, b with
  | Fin x, Fin y => if Req_dec_T x y then true else false
  | PInf, PInf | NInf, NInf => true
  | _, _ => false
  end.

(** [a > b] on floats: false as soon as a NaN is involved *)
Definition gtb (a b : fp) : bool :=
  match a, b with
  | NaN, _ | _, NaN => false
  | Fin x, Fin y => if Rlt_dec y x then true else false
  | PInf, PInf | NInf, _ | Fin _, PInf => false
  | PInf, Fin _ | PInf, NInf | Fin _, NInf => true
  end.

(** [a / b]; the sign of a zero is not tracked, a zero divisor counts as [+0] *)
Definition div (a b : fp) : fp :=
  match a, b with
  | NaN, _ | _, NaN => NaN
  | Fin x, Fin y =>
      match sgn y with
      | Eq => scale_inf true (sgn x)
      | _ => Fin (x / y)
      end
  | Fin _, PInf | Fin _, NInf => Fin 0
  | PInf, Fin y => match sgn y with Lt => NInf | _ => PInf end
  | NInf, Fin y => match sgn y with Lt => PInf | _ => NInf end
  | PInf, PInf | PInf, NInf | NInf, PInf | NInf, NInf => NaN
  end.

(** [std::isinf] *)
Definition isinf (a : fp) : bool :=
  match a with PInf | NInf => true | _ => false end.

End F.

(* ------------------------------------------------------------------ *)
(** ** Host side: the tiling planner ([op_host/pdist.cpp]) *)

Inductive DataType : Type := DT_FLOAT | DT_FLOAT16.

(** [PdistTilingData] of [pdist_tiling.h] *)
Record PdistTilingData : Type := mkTiling {
  t_n : Z;
  t_m : Z;
  t_p : fp;
  t_tileLength : Z;
  t_usedCoreNum : Z;
  t_tilingKey : Z
}.

(** What [TilingFunc] reads from its [gert::TilingContext]. *)
Record TilingContext : Type := mkContext {
  attr_p : option fp;          (* GetAttrPointer<float>(0), may be null   *)
  dim0 : Z;                    (* GetStorageShape().GetDim(0)             *)
  dim1 : Z;                    (* GetStorageShape().GetDim(1)             *)
  platformInfo : option Z;     (* GetPlatformInfo(): GetCoreNumAic() or null *)
  dtype : DataType             (* GetInputDesc(0)->GetDataType()          *)
}.

Definition typeSize_of (d : DataType) : Z :=
  match d with
  | DT_FLOAT => 4
  | DT_FLOAT16 => 2
  end.

Definition align : Z := 32.

(** [tileLength] as computed in [TilingFunc], all in [uint32_t]. *)
Definition tileLength_of (m typeSize : Z) : Z :=
  let rowSize := wrap32 (m * typeSize) in
  let alignedRowSize := wrap32 (wrap32 (wrap32 (rowSize + align - 1) / align) * align) in
  alignedRowSize / typeSize.

(** [usedCoreNum] as computed in [TilingFunc]. *)
Definition usedCoreNum_of (n aicoreNum : Z) : Z :=
  if n <? aicoreNum then 1 else aicoreNum.

(** [TilingFunc]: [None] is [GRAPH_FAILED]; the result also is the block
    dimension passed to [SetBlockDim]. *)
Definition TilingFunc (ctx : TilingContext) : option PdistTilingData :=
  let p := match attr_p ctx with Some v => v | None => F.two end in
  let n := wrap32 (dim0 ctx) in
  let m := wrap32 (dim1 ctx) in
  match platformInfo ctx with
  | None => None
  | Some cores =>
      let typeSize := typeSize_of (dtype ctx) in
      let tileLength := tileLength_of m typeSize in
      let aicoreNum := wrap32 cores in
      let usedCoreNum := usedCoreNum_of n aicoreNum in
      Some (mkTiling n m p tileLength usedCoreNum 1)
  end.

(** [ge::InferShape]: the output length, in [int64_t]. *)
Definition InferShape (n : Z) : Z := n * (n - 1) / 2.

(* ------------------------------------------------------------------ *)
(** ** Outcome of device code *)

Inductive result (A : Type) : Type :=
| Ok (a : A)
| OutOfBounds          (* a bulk read left the global buffer *)
| OutOfFuel.           (* the loop did not finish within the fuel given *)

Arguments Ok {A} a.
Arguments OutOfBounds {A}.
Arguments OutOfFuel {A}.

Definition bind {A B : Type} (r : result A) (k : A -> result B) : result B :=
  match r with
  | Ok a => k a
  | OutOfBounds => OutOfBounds
  | OutOfFuel => OutOfFuel
  end.

Notation "x <- c1 ;; c2" := (bind c1 (fun x => c2))
  (at level 61, c1 at next level, right associativity).

Fixpoint mapM {A B : Type} (f : A -> result B) (l : list A) : result (list B) :=
  match l with
  | [] => Ok []
  | a :: l' => b <- f a ;; bs <- mapM f l' ;; Ok (b :: bs)
  end.

(* ------------------------------------------------------------------ *)
(** ** Vector intrinsics

    [kernel_operator.h] is not part of the repository.  Each intrinsic is
    given the meaning the design document states for it: a dense loop over
    the first [count] elements with the mathematical operation of its name. *)

Module Vec.

Definition take (count : Z) (v : list fp) : list fp := firstn (Z.to_nat count) v.

Fixpoint zipWith (f : fp -> fp -> fp) (a b : list fp) : list fp :=
  match a, b with
  | x :: a', y :: b' => f x y :: zipWith f a' b'
  | _, _ => []
  end.

(** Modelled from the spec: [Sub(dst, src0, src1, count)], element-wise
    subtraction [src0 - src1]. *)
Definition Sub (src0 src1 : list fp) (count : Z) : list fp :=
  zipWith F.sub (take count src0) (take count src1).

(** Modelled from the spec: [Mul(dst, src0, src1, count)], element-wise
    multiply. *)
Definition Mul (src0 src1 : list fp) (count : Z) : list fp :=
  zipWith F.mul (take count src0) (take count src1).

(** Modelled from the spec: [Abs(dst, src, count)], element-wise absolute
    value. *)
Definition Abs (src : list fp) (count : Z) : list fp :=
  map F.abs (take count src).

(** Modelled from the spec: [Adds(dst, src, scalar, count)], adds a scalar
    to every element. *)
Definition Adds (src : list fp) (scalar : fp) (count : Z) : list fp :=
  map (fun v => F.add v scalar) (take count src).

(** Modelled from the spec: [Muls(dst, src, scalar, count)], multiplies
    every element by a scalar. *)
Definition Muls (src : list fp) (scalar : fp) (count : Z) : list fp :=
  map (fun v => F.mul v scalar) (take count src).

(** Modelled from the spec: [Ln(dst, src, count)], element-wise natural
    logarithm. *)
Definition Ln (src : list fp) (count : Z) : list fp :=
  map F.ln (take count src).

(** Modelled from the spec: [Exp(dst, src, count)], element-wise
    exponential. *)
Definition Exp (src : list fp) (count : Z) : list fp :=
  map F.exp (take count src).

(** Modelled from the spec: [ReduceSum(dst, src, work, count)], the
    horizontal sum of the first [count] elements, left in [dst[0]]. *)
Definition ReduceSum (src : list fp) (count : Z) : fp :=
  fold_right F.add F.zero (take count src).

(** Modelled from the spec: [Sqrt(dst, src, 1)] on the one-element result. *)
Definition Sqrt1 (src : fp) : fp := F.sqrt src.

(** Modelled from the spec: [DataCopy(ub, xGm[offset], count)], a bulk read
    of [count] consecutive elements of global memory starting at [offset]. *)
Definition DataCopy (xGm : list fp) (offset count : Z) : result (list fp) :=
  if offset + count <=? Z.of_nat (length xGm)
  then Ok (take count (skipn (Z.to_nat offset) xGm))
  else OutOfBounds.

End Vec.

(* ------------------------------------------------------------------ *)
(** ** Device side: the engine ([op_kernel/pdist.cpp]) *)

(** [KernelTilingData], the kernel's own copy of the descriptor layout. *)
Record KernelTilingData : Type := mkKernelTiling {
  n : Z;
  m : Z;
  p : fp;
  tileLength : Z;
  usedCoreNum : Z;
  tilingKey : Z
}.

(** Entry point [pdist]: the descriptor is copied field by field. *)
Definition load_tiling (t : PdistTilingData) : KernelTilingData :=
  mkKernelTiling (t_n t) (t_m t) (t_p t) (t_tileLength t) (t_usedCoreNum t)
                 (t_tilingKey t).

(** [sizeof(float)]: [Init] views both [x] and [y] as [float] arrays,
    whatever the data type of the tensors. *)
Definition kernel_elem_bytes : Z := 4.

(** Byte range [(first, length)] that [CopyRow] reads for row [rowIdx]:
    [tileLength] elements of [kernel_elem_bytes] bytes from element
    [rowIdx * m] on. *)
Definition CopyRow_bytes (td : KernelTilingData) (rowIdx : Z) : Z * Z :=
  (kernel_elem_bytes * wrap32 (rowIdx * m td), kernel_elem_bytes * tileLength td).

(** Byte range that row [rowIdx] of an [n x m] tensor of type [d] occupies. *)
Definition row_bytes (d : DataType) (m rowIdx : Z) : Z * Z :=
  (typeSize_of d * (rowIdx * m), typeSize_of d * m).

(** Size in bytes of an [n x m] input tensor of type [d]. *)
Definition input_bytes (d : DataType) (n m : Z) : Z := typeSize_of d * (n * m).

(** [CopyRow]: [DataCopy(ub, xGm[rowIdx * m], tileLength)]. *)
Definition CopyRow (xGm : list fp) (td : KernelTilingData) (rowIdx : Z)
  : result (list fp) :=
  Vec.DataCopy xGm (wrap32 (rowIdx * m td)) (tileLength td).

(** [(uint64_t)(2 * n - 1 - i) * i / 2 + (j - i - 1)]: the parenthesis is
    evaluated in [uint32_t] before the conversion to [uint64_t]. *)
Definition outIdx (n i j : Z) : Z :=
  let a := wrap32 (wrap32 (wrap32 (2 * n) - 1) - i) in
  let b := wrap32 (wrap32 (j - i) - 1) in
  wrap64 (wrap64 (wrap64 (a * i) / 2) + b).

(** The vector part of [ComputeAndSave]: the value left in [outLocal[0]]
    for the two staged rows. *)
Definition pair_value (td : KernelTilingData) (rowI rowJ : list fp) : fp :=
  let len := tileLength td in
  let rowJ := Vec.Sub rowI rowJ len in
  let rowJ := Vec.Abs rowJ len in
  if F.eqb (p td) F.one then
    Vec.ReduceSum rowJ len
  else if F.eqb (p td) F.two then
    let rowJ := Vec.Mul rowJ rowJ len in
    Vec.Sqrt1 (Vec.ReduceSum rowJ len)
  else
    let rowJ := Vec.Adds rowJ F.epsf len in
    let rowJ := Vec.Ln rowJ len in
    let rowJ := Vec.Muls rowJ (p td) len in
    let rowJ := Vec.Exp rowJ len in
    Vec.ReduceSum rowJ len.

(** the absolute differences of the staged elements, as [Sub] and [Abs]
    leave them in [rowJ] *)
Definition staged_diffs (td : KernelTilingData) (rowI rowJ : list fp) : list fp :=
  map F.abs (Vec.zipWith F.sub (Vec.take (tileLength td) rowI)
                               (Vec.take (tileLength td) rowJ)).

(** [ComputeAndSave]: the write [yRaw[outIdx] = result] is returned as the
    pair [(outIdx, result)]. *)
Definition ComputeAndSave (xGm : list fp) (td : KernelTilingData)
    (rowI : list fp) (i j : Z) : result (Z * fp) :=
  rowJ <- CopyRow xGm td j ;;
  Ok (outIdx (n td) i j, pair_value td rowI rowJ).

(** The loop nest of [Process], for any row fetch and any loop body.
    [fuel] bounds the number of iterations of each loop. *)
Section LoopNest.

Context {Row Out : Type}.
Variable fetch : Z -> result Row.
Variable body : Row -> Z -> Z -> result Out.
Variable td : KernelTilingData.

(** [for (uint32_t j = ...; j < n; ++j) body(rowI, i, j)] *)
Fixpoint inner_loop (fuel : nat) (rowI : Row) (i j : Z) : result (list Out) :=
  match fuel with
  | O => OutOfFuel
  | S fuel' =>
      if j <? n td then
        w <- body rowI i j ;;
        ws <- inner_loop fuel' rowI i (wrap32 (j + 1)) ;;
        Ok (w :: ws)
      else Ok []
  end.

(** [for (uint32_t i = ...; i < n; i += totalCoreNum) { ... }] *)
Fixpoint outer_loop (fuel_in fuel : nat) (i : Z) : result (list Out) :=
  match fuel with
  | O => OutOfFuel
  | S fuel' =>
      if i <? n td then
        rowI <- fetch i ;;
        ws <- inner_loop fuel_in rowI i (wrap32 (i + 1)) ;;
        rest <- outer_loop fuel_in fuel' (wrap32 (i + usedCoreNum td)) ;;
        Ok (ws ++ rest)
      else Ok []
  end.

Definition loop_nest (fuel : nat) (coreId : Z) : result (list Out) :=
  if coreId >=? usedCoreNum td then Ok []
  else outer_loop fuel fuel coreId.

End LoopNest.

(** [Process] on core [coreId]: the list of writes to [yRaw], in order. *)
Definition Process (fuel : nat) (xGm : list fp) (td : KernelTilingData)
    (coreId : Z) : result (list (Z * fp)) :=
  loop_nest (CopyRow xGm td) (ComputeAndSave xGm td) td fuel coreId.

(** The pairs [(i, j)] on which [Process] calls [ComputeAndSave] on core
    [coreId]: the same loop nest, data left out. *)
Definition Process_pairs (fuel : nat) (td : KernelTilingData) (coreId : Z)
  : result (list (Z * Z)) :=
  loop_nest (fun _ => Ok tt) (fun _ i j => Ok (i, j)) td fuel coreId.

(** [lo, lo+1, ..., hi-1]: the values of a [for (k = lo; k < hi; k++)]. *)
Definition zrange (lo hi : Z) : list Z :=
  map (fun k => lo + Z.of_nat k) (seq 0 (Z.to_nat (hi - lo))).

(** Core identifiers [0 .. blockDim - 1] of a launch. *)
Definition cores (blockDim : Z) : list Z := zrange 0 blockDim.

(** A launch with [blockDim = usedCoreNum] (as set by [SetBlockDim]): what
    every core enumerates. *)
Definition launch_pairs (fuel : nat) (td : KernelTilingData)
  : result (list (list (Z * Z))) :=
  mapM (Process_pairs fuel td) (cores (usedCoreNum td)).

(** A launch: the writes of every core. *)
Definition launch (fuel : nat) (xGm : list fp) (td : KernelTilingData)
  : result (list (list (Z * fp))) :=
  mapM (Process fuel xGm td) (cores (usedCoreNum td)).

(* ------------------------------------------------------------------ *)
(** ** The CPU golden reference ([TestPdist/main.cpp]) *)

Definition read (x : list fp) (idx : Z) : result fp :=
  if idx <? 0 then OutOfBounds
  else match nth_error x (Z.to_nat idx) with
       | Some v => Ok v
       | None => OutOfBounds
       end.

Section Reference.

(** [std::pow] of the C library. *)
Variable pow : fp -> fp -> fp.

(** [std::abs(x[i*m+k] - x[j*m+k])] *)
Definition cpu_diff (x : list fp) (m i j k : Z) : result fp :=
  a <- read x (i * m + k) ;;
  b <- read x (j * m + k) ;;
  Ok (F.abs (F.sub a b)).

(** the [is_inf] branch: the largest absolute difference *)
Fixpoint cpu_max (x : list fp) (m i j : Z) (ks : list Z) (max_diff : fp)
  : result fp :=
  match ks with
  | [] => Ok max_diff
  | k :: ks' =>
      diff <- cpu_diff x m i j k ;;
      cpu_max x m i j ks' (if F.gtb diff max_diff then diff else max_diff)
  end.

(** the other branch: the sum of the powers *)
Fixpoint cpu_sum (x : list fp) (m i j : Z) (ks : list Z) (p : fp) (sum : fp)
  : result fp :=
  match ks with
  | [] => Ok sum
  | k :: ks' =>
      diff <- cpu_diff x m i j k ;;
      cpu_sum x m i j ks' p (F.add sum (pow diff p))
  end.

(** the body of the two loops of [cpu_pdist]: the [double] [result] computed
    for [(i, j)], before its conversion to [T] *)
Definition cpu_pair (x : list fp) (m : Z) (p : fp) (i j : Z) : result fp :=
  if F.isinf p then cpu_max x m i j (zrange 0 m) F.zero
  else
    sum <- cpu_sum x m i j (zrange 0 m) p F.zero ;;
    Ok (pow sum (F.div F.one p)).

(** [cpu_pdist]: the results for [y[0], y[1], ...], in this order, before
    their conversion to [T] *)
Definition cpu_pdist (x : list fp) (n m : Z) (p : fp) : result (list fp) :=
  mapM (fun ij => cpu_pair x m p (fst ij) (snd ij))
       (flat_map (fun i => map (pair i) (zrange (i + 1) n)) (zrange 0 n)).

End Reference.

(** The pairs [(i, j)] in the order of the two loops of [cpu_pdist]; the
    [k]-th of them is stored in [y[k]] ([out_idx++]). *)
Definition all_pairs (n : Z) : list (Z * Z) :=
  flat_map (fun i => map (pair i) (zrange (i + 1) n)) (zrange 0 n).

(** [int64_t] arithmetic of [ge::InferShape]: two's-complement wrap-around
    and the division of C++, which truncates. *)
Definition wrap_int64 (z : Z) : Z := (z + 2 ^ 63) mod 2 ^ 64 - 2 ^ 63.

(** [int64_t outputSize = n * (n - 1) / 2] as [InferShape] evaluates it *)
Definition InferShape_int64 (n : Z) : Z :=
  Z.quot (wrap_int64 (n * wrap_int64 (n - 1))) 2.

(** [y[out_idx++] = static_cast<T>(result)] of [cpu_pdist]: the [double]
    [result] of [cpu_pair] is converted to the element type [T] by [narrow]
    before it is stored. *)
Definition cpu_store (narrow : fp -> fp) (pow : fp -> fp -> fp) (x : list fp)
    (m : Z) (p : fp) (i j : Z) : result fp :=
  r <- cpu_pair pow x m p i j ;;
  Ok (narrow r).

(** Row [i] of a row-major matrix with rows of [m] elements. *)
Definition row_of {A : Type} (x : list A) (m i : Z) : list A :=
  firstn (Z.to_nat m) (skipn (Z.to_nat (i * m)) x).

(** *** [check_accuracy]

    [elem_size] is [sizeof(T)]; the values are compared as [double]; the
    messages printed and [max_err], which is only printed, are left out. *)

(** [epsilon] after [if (p > 2.0) epsilon *= 5.0] *)
Definition tolerance (elem_size : Z) (p : fp) : fp :=
  let epsilon := if elem_size =? 2 then Fin (/ 10 ^ 2) else Fin (/ 10 ^ 4) in
  if F.gtb p F.two then F.mul epsilon (Fin 5) else epsilon.

(** [diff > epsilon && diff / (std::abs(val1) + 1e-9) > epsilon] *)
Definition mismatch (epsilon val1 val2 : fp) : bool :=
  let diff := F.abs (F.sub val1 val2) in
  F.gtb diff epsilon &&
  F.gtb (F.div diff (F.add (F.abs val1) (Fin (/ 10 ^ 9)))) epsilon.

(** the loop over [i < len]: the final [err_count] *)
Fixpoint count_errors (epsilon : fp) (expected actual : list fp) (idx : list Z)
    (err_count : Z) : result Z :=
  match idx with
  | [] => Ok err_count
  | i :: idx' =>
      val1 <- read expected i ;;
      val2 <- read actual i ;;
      count_errors epsilon expected actual idx'
        (if mismatch epsilon val1 val2 then err_count + 1 else err_count)
  end.

Definition check_accuracy (elem_size : Z) (expected actual : list fp) (len : Z)
    (p : fp) : result bool :=
  err_count <- count_errors (tolerance elem_size p) expected actual (zrange 0 len) 0 ;;
  Ok (if 0 <? err_count then false else true).

(* ------------------------------------------------------------------ *)
(** ** The design document's formulas, as written there *)

Module Spec.

(** [offset(i, j) = (2n - 1 - i) * i / 2 + (j - i - 1)] over the integers *)
Definition offset (n i j : Z) : Z := (2 * n - 1 - i) * i / 2 + (j - i - 1).

(** [ceil(a / b)] for [b > 0] *)
Definition ceil_div (a b : Z) : Z := - ((- a) / b).

(** [alignedRowLength = ceil(rowBytes / 32) * 32 / elementBytes] *)
Definition alignedRowLength (m elementBytes : Z) : Z :=
  ceil_div (m * elementBytes) 32 * 32 / elementBytes.

(** the pairs [(i, j)] with [0 <= i < j < n] *)
Definition is_pair (n i j : Z) : Prop := 0 <= i /\ i < j /\ j < n.

Local Open Scope R_scope.

(** sum of a list of reals *)
Definition Rsum (l : list R) : R := fold_right Rplus 0 l.

Fixpoint diffs (a b : list R) : list R :=
  match a, b with
  | x :: a', y :: b' => Rabs (x - y) :: diffs a' b'
  | _, _ => []
  end.

(** Manhattan distance: the sum of the absolute differences *)
Definition manhattan (a b : list R) : R := Rsum (diffs a b).

(** Euclidean distance: the square root of the sum of the squared differences *)
Definition euclidean (a b : list R) : R :=
  R_sqrt.sqrt (Rsum (map (fun d => d * d) (diffs a b))).

(** the unrooted sum of [(|d| + 1e-20)^q] *)
Definition unrooted (q : R) (a b : list R) : R :=
  Rsum (map (fun d => Rpower (d + F.eps) q) (diffs a b)).

(** Chebyshev distance: the largest absolute difference *)
Definition chebyshev (a b : list R) : R := fold_right Rmax 0 (diffs a b).

End Spec.

(* ================================================================== *)
(** * Properties *)

(** ** Machine integers *)

Lemma wrap32_small z : 0 <= z < 2 ^ 32 -> wrap32 z = z.
Proof. intros; unfold wrap32; now apply Z.mod_small. Qed.

Lemma wrap64_small z : 0 <= z < 2 ^ 64 -> wrap64 z = z.
Proof. intros; unfold wrap64; now apply Z.mod_small. Qed.

Lemma wrap32_range z : 0 <= wrap32 z < 2 ^ 32.
Proof. unfold wrap32; apply Z.mod_pos_bound; lia. Qed.

(** ** The planner *)

Lemma ceil_div_32 a : Spec.ceil_div a 32 = (a + 31) / 32.
Proof.
  unfold Spec.ceil_div.
  pose proof (Z.div_mod (- a) 32 ltac:(lia)).
  pose proof (Z.mod_pos_bound (- a) 32 ltac:(lia)).
  pose proof (Z.div_mod (a + 31) 32 ltac:(lia)).
  pose proof (Z.mod_pos_bound (a + 31) 32 ltac:(lia)).
  lia.
Qed.

(** Without wrap-around the planner's row length is the document's formula. *)
Lemma tileLength_of_spec mm ts :
  0 <= mm * ts -> mm * ts + 31 < 2 ^ 32 ->
  tileLength_of mm ts = Spec.alignedRowLength mm ts.
Proof.
  intros H0 H1. unfold tileLength_of, Spec.alignedRowLength, align.
  rewrite ceil_div_32.
  rewrite (wrap32_small (mm * ts)) by lia.
  replace (mm * ts + 32 - 1) with (mm * ts + 31) by lia.
  rewrite (wrap32_small (mm * ts + 31)) by lia.
  pose proof (Z.div_mod (mm * ts + 31) 32 ltac:(lia)).
  pose proof (Z.mod_pos_bound (mm * ts + 31) 32 ltac:(lia)).
  rewrite (wrap32_small ((mm * ts + 31) / 32)) by lia.
  rewrite (wrap32_small ((mm * ts + 31) / 32 * 32)) by lia.
  reflexivity.
Qed.

Lemma alignedRowLength_ge mm ts :
  (ts = 4 \/ ts = 2) -> 0 <= mm -> mm <= Spec.alignedRowLength mm ts.
Proof.
  intros Hts Hm. unfold Spec.alignedRowLength. rewrite ceil_div_32.
  pose proof (Z.div_mod (mm * ts + 31) 32 ltac:(lia)).
  pose proof (Z.mod_pos_bound (mm * ts + 31) 32 ltac:(lia)).
  apply Z.div_le_lower_bound; lia.
Qed.

Lemma alignedRowLength_multiple mm ts :
  (ts = 4 \/ ts = 2) -> Spec.alignedRowLength mm ts mod (32 / ts) = 0.
Proof.
  intros Hts. unfold Spec.alignedRowLength.
  set (q := Spec.ceil_div (mm * ts) 32).
  destruct Hts; subst ts.
  - replace (q * 32) with (q * 8 * 4) by lia. rewrite Z.div_mul by lia.
    change (32 / 4) with 8. apply Z.mod_mul; lia.
  - replace (q * 32) with (q * 16 * 2) by lia. rewrite Z.div_mul by lia.
    change (32 / 2) with 16. apply Z.mod_mul; lia.
Qed.

(** ** The output index *)

(** the row start [(2n - 1 - i) * i / 2] is an exact half *)
Lemma rowStart_double N i : 2 * ((2 * N - 1 - i) * i / 2) = (2 * N - 1 - i) * i.
Proof.
  assert (E : ((2 * N - 1 - i) * i) mod 2 = 0).
  { destruct (Z.even i) eqn:Ei.
    - apply Z.even_spec in Ei. destruct Ei as [k ->].
      replace ((2 * N - 1 - 2 * k) * (2 * k)) with ((2 * N - 1 - 2 * k) * k * 2) by ring.
      apply Z.mod_mul; lia.
    - assert (Oi : Z.odd i = true) by (rewrite <- Z.negb_even, Ei; reflexivity).
      apply Z.odd_spec in Oi. destruct Oi as [k ->].
      replace ((2 * N - 1 - (2 * k + 1)) * (2 * k + 1))
        with ((N - 1 - k) * (2 * k + 1) * 2) by ring.
      apply Z.mod_mul; lia. }
  pose proof (Z.div_mod ((2 * N - 1 - i) * i) 2 ltac:(lia)). lia.
Qed.

Lemma offset_double N i j :
  2 * Spec.offset N i j = (2 * N - 1 - i) * i + 2 * (j - i - 1).
Proof. unfold Spec.offset. pose proof (rowStart_double N i). lia. Qed.

Lemma InferShape_double N : 2 * InferShape N = N * (N - 1).
Proof.
  unfold InferShape.
  pose proof (rowStart_double N (N - 1)) as H.
  replace ((2 * N - 1 - (N - 1)) * (N - 1)) with (N * (N - 1)) in H by ring.
  exact H.
Qed.

Lemma offset_range N i j :
  Spec.is_pair N i j -> 0 <= Spec.offset N i j < InferShape N.
Proof.
  intros (Hi & Hij & Hj).
  pose proof (offset_double N i j). pose proof (InferShape_double N).
  split; nia.
Qed.

Lemma offset_lt_rows N i j i' j' :
  Spec.is_pair N i j -> Spec.is_pair N i' j' -> i < i' ->
  Spec.offset N i j < Spec.offset N i' j'.
Proof.
  intros (Hi & Hij & Hj) (Hi' & Hij' & Hj') Hlt.
  pose proof (offset_double N i j). pose proof (offset_double N i' j').
  assert (E : (2 * N - 1 - i') * i' - (2 * N - 1 - (i + 1)) * (i + 1)
              = (i' - (i + 1)) * (2 * N - 1 - i' - (i + 1))) by ring.
  assert (0 <= (i' - (i + 1)) * (2 * N - 1 - i' - (i + 1))) by (apply Z.mul_nonneg_nonneg; lia).
  nia.
Qed.

Lemma offset_inj N i j i' j' :
  Spec.is_pair N i j -> Spec.is_pair N i' j' ->
  Spec.offset N i j = Spec.offset N i' j' -> i = i' /\ j = j'.
Proof.
  intros P P' E.
  destruct (Z.lt_trichotomy i i') as [L | [-> | L]].
  - pose proof (offset_lt_rows _ _ _ _ _ P P' L). lia.
  - split; [reflexivity|]. unfold Spec.offset in E. lia.
  - pose proof (offset_lt_rows _ _ _ _ _ P' P L). lia.
Qed.

(** every index below the start of row [b] is the offset of a pair *)
Lemma offset_surj_below N (b : nat) :
  Z.of_nat b <= N - 1 ->
  forall k, 0 <= k -> 2 * k < (2 * N - 1 - Z.of_nat b) * Z.of_nat b ->
  exists i j, Spec.is_pair N i j /\ Spec.offset N i j = k.
Proof.
  induction b as [|b IH]; intros Hb k Hk0 Hk.
  - change (Z.of_nat 0) with 0 in Hk. lia.
  - destruct (Z_lt_le_dec (2 * k) ((2 * N - 1 - Z.of_nat b) * Z.of_nat b)) as [L | G].
    + apply IH; lia.
    + set (i := Z.of_nat b) in *.
      pose proof (rowStart_double N i) as D.
      set (s := (2 * N - 1 - i) * i / 2) in *.
      exists i, (k - s + i + 1).
      assert (Hi : Z.of_nat (S b) = i + 1) by (unfold i; lia).
      rewrite Hi in Hk, Hb.
      assert (k - s < N - 1 - i) by nia.
      assert (0 <= k - s) by nia.
      split.
      * unfold Spec.is_pair. unfold i. lia.
      * unfold Spec.offset. fold s. lia.
Qed.

Lemma offset_surj N k :
  1 <= N -> 0 <= k < InferShape N ->
  exists i j, Spec.is_pair N i j /\ Spec.offset N i j = k.
Proof.
  intros HN [Hk0 Hk].
  pose proof (InferShape_double N).
  apply (offset_surj_below N (Z.to_nat (N - 1))); try lia.
  rewrite Z2Nat.id by lia. nia.
Qed.

Lemma wrap32_sub_l a b : wrap32 (wrap32 a - b) = wrap32 (a - b).
Proof. unfold wrap32. apply Zminus_mod_idemp_l. Qed.

(** Up to [2^31] rows the kernel's 32/64-bit evaluation is the formula. *)
Lemma outIdx_offset N i j :
  N <= 2 ^ 31 -> Spec.is_pair N i j -> outIdx N i j = Spec.offset N i j.
Proof.
  intros HN (Hi & Hij & Hj). unfold outIdx, Spec.offset.
  rewrite (wrap32_sub_l (2 * N) 1), (wrap32_sub_l (2 * N - 1) i).
  rewrite (wrap32_sub_l (j - i) 1).
  rewrite (wrap32_small (2 * N - 1 - i)) by lia.
  rewrite (wrap32_small (j - i - 1)) by lia.
  assert (B : 0 <= (2 * N - 1 - i) * i < 2 ^ 63) by nia.
  rewrite (wrap64_small ((2 * N - 1 - i) * i)) by lia.
  pose proof (rowStart_double N i).
  rewrite (wrap64_small ((2 * N - 1 - i) * i / 2)) by lia.
  apply wrap64_small. lia.
Qed.

(** C2, counterexample: with [2^31 + 1] rows the 32-bit parenthesis
    [2 * n - 1 - i] wraps to [0] for [i = 1], so that the pairs [(0, 1)] and
    [(1, 2)] are written at the same index [0]; the formula over the
    integers puts [(1, 2)] at index [2^31]. *)
Lemma outIdx_collision :
  2 <= 2 ^ 31 + 1 /\
  Spec.is_pair (2 ^ 31 + 1) 0 1 /\ Spec.is_pair (2 ^ 31 + 1) 1 2 /\
  outIdx (2 ^ 31 + 1) 0 1 = 0 /\ outIdx (2 ^ 31 + 1) 1 2 = 0 /\
  Spec.offset (2 ^ 31 + 1) 1 2 = 2 ^ 31 /\
  ~ (forall i j i' j',
        Spec.is_pair (2 ^ 31 + 1) i j -> Spec.is_pair (2 ^ 31 + 1) i' j' ->
        outIdx (2 ^ 31 + 1) i j = outIdx (2 ^ 31 + 1) i' j' -> i = i' /\ j = j').
Proof.
  assert (P01 : Spec.is_pair (2 ^ 31 + 1) 0 1) by (unfold Spec.is_pair; lia).
  assert (P12 : Spec.is_pair (2 ^ 31 + 1) 1 2) by (unfold Spec.is_pair; lia).
  assert (E01 : outIdx (2 ^ 31 + 1) 0 1 = 0) by (vm_compute; reflexivity).
  assert (E12 : outIdx (2 ^ 31 + 1) 1 2 = 0) by (vm_compute; reflexivity).
  assert (O12 : Spec.offset (2 ^ 31 + 1) 1 2 = 2 ^ 31) by (vm_compute; reflexivity).
  split; [lia|]. split; [exact P01|]. split; [exact P12|].
  split; [exact E01|]. split; [exact E12|]. split; [exact O12|].
  intros H. specialize (H 0 1 1 2 P01 P12). rewrite E01, E12 in H.
  destruct (H eq_refl). lia.
Qed.

(** C2 (amended): for every [n] with [2 <= n <= 2^31] the index computed by
    [ComputeAndSave] is the formula [(2n - 1 - i) * i / 2 + (j - i - 1)], and
    it is a bijection from the pairs [0 <= i < j < n] onto [[0, n(n-1)/2)]:
    in range, injective, surjective.  It is the index of the write of
    [ComputeAndSave], and for [n = 5] the ten pairs go to [0 .. 9] in order. *)
Theorem outIdx_bijection N :
  2 <= N <= 2 ^ 31 ->
  (forall i j, Spec.is_pair N i j ->
     outIdx N i j = Spec.offset N i j /\ 0 <= outIdx N i j < InferShape N) /\
  (forall i j i' j', Spec.is_pair N i j -> Spec.is_pair N i' j' ->
     outIdx N i j = outIdx N i' j' -> i = i' /\ j = j') /\
  (forall k, 0 <= k < InferShape N ->
     exists i j, Spec.is_pair N i j /\ outIdx N i j = k) /\
  (forall xGm td rowI i j w,
     n td = N -> ComputeAndSave xGm td rowI i j = Ok w -> fst w = outIdx N i j) /\
  map (fun ij => outIdx 5 (fst ij) (snd ij))
      [(0, 1); (0, 2); (0, 3); (0, 4); (1, 2); (1, 3); (1, 4); (2, 3); (2, 4); (3, 4)]
  = [0; 1; 2; 3; 4; 5; 6; 7; 8; 9].
Proof.
  intros [H2 HN]. repeat apply conj.
  - intros i j P. rewrite (outIdx_offset N i j HN P).
    split; [reflexivity | now apply offset_range].
  - intros i j i' j' P P'.
    rewrite (outIdx_offset N i j HN P), (outIdx_offset N i' j' HN P').
    now apply offset_inj.
  - intros k Hk. destruct (offset_surj N k ltac:(lia) Hk) as (i & j & P & E).
    exists i, j. split; [exact P|]. now rewrite (outIdx_offset N i j HN P).
  - intros xGm td rowI i j w En. unfold ComputeAndSave.
    destruct (CopyRow xGm td j); simpl; try discriminate.
    intros [= <-]. simpl. now rewrite En.
  - vm_compute. reflexivity.
Qed.

Lemma outIdx_bijection_witness :
  2 <= 5 <= 2 ^ 31 /\
  (forall k, 0 <= k < InferShape 5 ->
     exists i j, Spec.is_pair 5 i j /\ outIdx 5 i j = k).
Proof.
  split; [lia|]. apply (outIdx_bijection 5). lia.
Defined.

(** ** Claims on the planner *)

(** C6, counterexample: a row of [2^30] 32-bit elements has [2^32] bytes,
    which wraps to [0] in [uint32_t]: the planner's row length is [0],
    smaller than [m]. *)
Lemma TilingFunc_alignment_wraps :
  exists td,
    TilingFunc (mkContext None 2 (2 ^ 30) (Some 8) DT_FLOAT) = Some td /\
    t_m td = 2 ^ 30 /\ t_tileLength td = 0 /\ ~ (t_m td <= t_tileLength td).
Proof.
  exists (mkTiling 2 (2 ^ 30) F.two 0 1 1).
  split; [vm_compute; reflexivity|]. cbn [t_m t_tileLength].
  repeat split; lia.
Qed.

(** C6 (amended): for every [m >= 1] and element width 4 or 2 with
    [m * elementBytes <= 2^32 - 32], the planner's [tileLength] is
    [ceil(m * elementBytes / 32) * 32 / elementBytes]; it is at least [m] and
    a multiple of the number of elements in 32 bytes (8, resp. 16).
    [m = 5] gives 8 for width 4 and 16 for width 2, [m = 8] gives 8 for
    width 4. *)
Theorem TilingFunc_alignedRowLength ctx total :
  platformInfo ctx = Some total ->
  1 <= dim1 ctx ->
  dim1 ctx * typeSize_of (dtype ctx) <= 2 ^ 32 - 32 ->
  exists td,
    TilingFunc ctx = Some td /\
    t_m td = dim1 ctx /\
    t_tileLength td = Spec.alignedRowLength (dim1 ctx) (typeSize_of (dtype ctx)) /\
    t_m td <= t_tileLength td /\
    t_tileLength td mod (32 / typeSize_of (dtype ctx)) = 0 /\
    tileLength_of 5 (typeSize_of DT_FLOAT) = 8 /\
    tileLength_of 5 (typeSize_of DT_FLOAT16) = 16 /\
    tileLength_of 8 (typeSize_of DT_FLOAT) = 8.
Proof.
  intros Hp Hm Hb. unfold TilingFunc. rewrite Hp.
  assert (Hts : typeSize_of (dtype ctx) = 4 \/ typeSize_of (dtype ctx) = 2)
    by (destruct (dtype ctx); simpl; lia).
  assert (Hm32 : wrap32 (dim1 ctx) = dim1 ctx) by (apply wrap32_small; lia).
  eexists. split; [reflexivity|]. cbn [t_m t_tileLength].
  rewrite Hm32, tileLength_of_spec by lia.
  repeat split.
  - apply alignedRowLength_ge; [exact Hts | lia].
  - apply alignedRowLength_multiple; exact Hts.
Qed.

Lemma TilingFunc_alignedRowLength_witness :
  exists td,
    TilingFunc (mkContext None 4 5 (Some 8) DT_FLOAT16) = Some td /\
    t_tileLength td = 16.
Proof.
  destruct (TilingFunc_alignedRowLength (mkContext None 4 5 (Some 8) DT_FLOAT16) 8)
    as (td & E & _ & L & _).
  - reflexivity.
  - simpl. lia.
  - simpl. lia.
  - exists td. split; [exact E|]. rewrite L. reflexivity.
Defined.

(** C7: whatever [m], [p] and the element type, the planner sets
    [usedCoreNum] to the number of cores of the platform, except when [n] is
    strictly smaller than that number: then it is 1. *)
Theorem TilingFunc_usedCoreNum ctx total :
  platformInfo ctx = Some total ->
  is_u32 total -> is_u32 (dim0 ctx) ->
  exists td,
    TilingFunc ctx = Some td /\
    t_n td = dim0 ctx /\
    (dim0 ctx < total -> t_usedCoreNum td = 1) /\
    (~ dim0 ctx < total -> t_usedCoreNum td = total).
Proof.
  intros Hp Ht Hn. unfold TilingFunc. rewrite Hp.
  eexists. split; [reflexivity|]. cbn [t_n t_usedCoreNum].
  rewrite (wrap32_small total Ht), (wrap32_small (dim0 ctx) Hn).
  unfold usedCoreNum_of.
  split; [reflexivity|].
  destruct (Z.ltb_spec (dim0 ctx) total); split; intros; try reflexivity; lia.
Qed.

Lemma TilingFunc_usedCoreNum_witness :
  exists td,
    TilingFunc (mkContext (Some F.one) 3 7 (Some 8) DT_FLOAT) = Some td /\
    t_usedCoreNum td = 1.
Proof.
  destruct (TilingFunc_usedCoreNum (mkContext (Some F.one) 3 7 (Some 8) DT_FLOAT) 8)
    as (td & E & _ & L & _).
  - reflexivity.
  - unfold is_u32. lia.
  - unfold is_u32. simpl. lia.
  - exists td. split; [exact E|]. apply L. simpl. lia.
Defined.

(** ** Lists of consecutive integers *)

Lemma NoDup_append {A} (l1 l2 : list A) :
  NoDup l1 -> NoDup l2 -> (forall a, In a l1 -> ~ In a l2) -> NoDup (l1 ++ l2).
Proof.
  induction l1 as [|a l1 IH]; intros H1 H2 D; simpl; [exact H2|].
  inversion H1 as [|? ? Ha H1']; subst. constructor.
  - rewrite in_app_iff. intros [H | H]; [contradiction|].
    apply (D a); [now left | exact H].
  - apply IH; auto. intros b Hb. apply D. now right.
Qed.

Lemma NoDup_map_on {A B} (f : A -> B) (l : list A) :
  NoDup l ->
  (forall a b, In a l -> In b l -> f a = f b -> a = b) ->
  NoDup (map f l).
Proof.
  induction 1 as [|a l Ha Hl IH]; intros Inj; simpl; constructor.
  - rewrite in_map_iff. intros (b & E & Hb).
    assert (b = a) by (apply Inj; [now right | now left | exact E]).
    subst b. contradiction.
  - apply IH. intros x y Hx Hy. apply Inj; now right.
Qed.

Lemma zrange_nil lo hi : hi <= lo -> zrange lo hi = [].
Proof.
  intros H. unfold zrange. replace (Z.to_nat (hi - lo)) with 0%nat by lia.
  reflexivity.
Qed.

Lemma zrange_cons lo hi : lo < hi -> zrange lo hi = lo :: zrange (lo + 1) hi.
Proof.
  intros H. unfold zrange.
  replace (Z.to_nat (hi - lo)) with (S (Z.to_nat (hi - (lo + 1)))) by lia.
  cbn [seq map]. f_equal; [lia|].
  rewrite <- seq_shift, map_map. apply map_ext. intros k. lia.
Qed.

Lemma In_zrange lo hi k : In k (zrange lo hi) <-> lo <= k < hi.
Proof.
  unfold zrange. rewrite in_map_iff. split.
  - intros (x & <- & Hx). apply in_seq in Hx. lia.
  - intros H. exists (Z.to_nat (k - lo)). split; [lia|]. apply in_seq. lia.
Qed.

Lemma NoDup_zrange lo hi : NoDup (zrange lo hi).
Proof.
  unfold zrange. apply NoDup_map_on.
  - apply seq_NoDup.
  - intros a b _ _ H. lia.
Qed.

(** ** The loop nest of [Process] *)

(** the inner loop visits [j, j+1, ..., n-1] *)
Lemma inner_loop_pairs td (fuel : nat) i j :
  n td < 2 ^ 32 ->
  0 <= j -> (Z.to_nat (n td - j) < fuel)%nat ->
  inner_loop (fun _ i j => Ok (i, j)) td fuel tt i j
  = Ok (map (pair i) (zrange j (n td))).
Proof.
  intros Hn. revert j. induction fuel as [|fuel IH]; intros j Hj Hf; [lia|].
  cbn [inner_loop].
  destruct (Z.ltb_spec j (n td)) as [L | G].
  - cbn [bind]. rewrite (wrap32_small (j + 1)) by lia.
    rewrite IH by lia. cbn [bind]. rewrite (zrange_cons j (n td) L). reflexivity.
  - rewrite zrange_nil by lia. reflexivity.
Qed.

Section Schedule.

Variable td : KernelTilingData.
Let N := n td.
Let C := usedCoreNum td.

Hypothesis N_nonneg : 0 <= N.
Hypothesis C_pos : 1 <= C.
Hypothesis no_wrap : N + C <= 2 ^ 32.

(** rows visited from [i] on: [i, i + C, i + 2C, ...] below [n], each with
    all its columns *)
Lemma outer_loop_pairs (fuel_in fuel : nat) i :
  0 <= i < N + C ->
  (Z.to_nat N < fuel_in)%nat -> (Z.to_nat (N - i) < fuel)%nat ->
  exists l,
    outer_loop (fun _ => Ok tt) (fun _ i j => Ok (i, j)) td fuel_in fuel i = Ok l /\
    NoDup l /\
    forall a b, In (a, b) l <-> (i <= a /\ (a - i) mod C = 0 /\ a < b < N).
Proof.
  revert i. induction fuel as [|fuel IH]; intros i Hi Hfi Hf; [lia|].
  cbn [outer_loop]. fold N C.
  destruct (Z.ltb_spec i N) as [L | G].
  - cbn [bind]. rewrite (wrap32_small (i + 1)) by lia.
    rewrite inner_loop_pairs by (fold N; lia). fold N. cbn [bind].
    rewrite (wrap32_small (i + C)) by lia.
    destruct (IH (i + C)) as (rest & E & ND & M); try lia.
    rewrite E. cbn [bind]. eexists. split; [reflexivity|]. split.
    + apply NoDup_append.
      * apply NoDup_map_on; [apply NoDup_zrange|].
        intros x y _ _ [= ->]. reflexivity.
      * exact ND.
      * intros [a b] H1 H2. apply in_map_iff in H1. destruct H1 as (x & [= <- <-] & _).
        apply M in H2. lia.
    + intros a b. rewrite in_app_iff, in_map_iff, M. split.
      * intros [(x & [= <- <-] & Hx) | (H1 & H2 & H3)].
        -- apply In_zrange in Hx. rewrite Z.sub_diag, Z.mod_0_l by lia. lia.
        -- split; [lia|]. split; [|lia].
           replace (a - i) with (a - (i + C) + 1 * C) by lia.
           rewrite Z.mod_add by lia. exact H2.
      * intros (H1 & H2 & H3).
        destruct (Z.eq_dec a i) as [-> | Hne].
        -- left. exists b. split; [reflexivity|]. apply In_zrange. lia.
        -- right. apply Z.mod_divide in H2; [|lia]. destruct H2 as [q Hq].
           assert (1 <= q) by nia.
           split; [nia|]. split; [|lia].
           replace (a - (i + C)) with ((q - 1) * C) by lia.
           apply Z.mod_mul. lia.
  - eexists. split; [reflexivity|]. split; [constructor|].
    intros a b. simpl. split; [tauto | lia].
Qed.

(** core [u] enumerates exactly the pairs whose first row is [u] modulo the
    number of cores *)
Lemma Process_pairs_owned (fuel : nat) u :
  0 <= u < C -> (Z.to_nat N < fuel)%nat ->
  exists l,
    Process_pairs fuel td u = Ok l /\
    NoDup l /\
    forall a b, In (a, b) l <-> (a mod C = u /\ Spec.is_pair N a b).
Proof.
  intros Hu Hf. unfold Process_pairs, loop_nest. fold C.
  destruct (Z.geb_spec u C) as [G | L]; [lia|].
  destruct (outer_loop_pairs fuel fuel u) as (l & E & ND & M); try lia.
  exists l. split; [exact E|]. split; [exact ND|].
  intros a b. rewrite M. unfold Spec.is_pair. split.
  - intros (H1 & H2 & H3). split; [|lia].
    apply Z.mod_divide in H2; [|lia]. destruct H2 as [q Hq].
    replace a with (u + q * C) by lia. rewrite Z.mod_add by lia.
    apply Z.mod_small. lia.
  - intros (H1 & H2 & H3 & H4).
    pose proof (Z.div_mod a C ltac:(lia)) as D.
    pose proof (Z.div_pos a C ltac:(lia) ltac:(lia)).
    split; [nia|]. split; [|lia].
    replace (a - u) with (a / C * C) by lia. apply Z.mod_mul. lia.
Qed.

End Schedule.

Lemma mapM_Forall2 {A B} (f : A -> result B) (P : A -> B -> Prop) (l : list A) :
  (forall a, In a l -> exists b, f a = Ok b /\ P a b) ->
  exists bs, mapM f l = Ok bs /\ Forall2 P l bs.
Proof.
  induction l as [|a l IH]; intros H.
  - exists []. split; [reflexivity | constructor].
  - destruct (H a (or_introl eq_refl)) as (b & Eb & Pb).
    destruct IH as (bs & Ebs & Pbs); [intros x Hx; apply H; now right|].
    exists (b :: bs). cbn [mapM]. rewrite Eb. cbn [bind]. rewrite Ebs.
    split; [reflexivity | now constructor].
Qed.

(** lists owned by distinct keys: their concatenation has no duplicate and
    holds exactly the elements whose key is listed *)
Lemma concat_owned {K A} (key : A -> K) (good : A -> Prop)
    (us : list K) (ls : list (list A)) :
  NoDup us ->
  Forall2 (fun u l => NoDup l /\ forall x, In x l <-> (key x = u /\ good x)) us ls ->
  NoDup (concat ls) /\
  forall x, In x (concat ls) <-> (In (key x) us /\ good x).
Proof.
  intros ND F. induction F as [|u l us ls [NDl Ml] F IH].
  - split; [constructor|]. simpl. tauto.
  - inversion ND as [|? ? Hu ND']; subst.
    destruct (IH ND') as (ND2 & M2). cbn [concat]. split.
    + apply NoDup_append; auto.
      intros x H1 H2. apply Ml in H1. apply M2 in H2.
      destruct H1 as [<- _]. now destruct H2.
    + intros x. rewrite in_app_iff, Ml, M2. simpl. split.
      * intros [[E G] | [I G]]; auto.
      * intros [[E | I] G]; auto.
Qed.

(** one iteration of the outer loop, and its exit *)
Lemma outer_pairs_step td (fuel_in fuel : nat) i :
  n td < 2 ^ 32 -> 0 <= i < n td -> (Z.to_nat (n td) < fuel_in)%nat ->
  outer_loop (fun _ => Ok tt) (fun _ i j => Ok (i, j)) td fuel_in (S fuel) i
  = (rest <- outer_loop (fun _ => Ok tt) (fun _ i j => Ok (i, j)) td fuel_in fuel
               (wrap32 (i + usedCoreNum td)) ;;
     Ok (map (pair i) (zrange (i + 1) (n td)) ++ rest)).
Proof.
  intros Hn Hi Hf. cbn [outer_loop].
  destruct (Z.ltb_spec i (n td)) as [L | G]; [|lia].
  cbn [bind]. rewrite (wrap32_small (i + 1)) by lia.
  rewrite inner_loop_pairs by lia. reflexivity.
Qed.

Lemma outer_pairs_stop td (fuel_in fuel : nat) i :
  n td <= i ->
  outer_loop (fun _ => Ok tt) (fun _ i j => Ok (i, j)) td fuel_in (S fuel) i = Ok [].
Proof.
  intros Hi. cbn [outer_loop].
  destruct (Z.ltb_spec i (n td)) as [L | G]; [lia | reflexivity].
Qed.

(** C1, counterexample: with [2^32 - 1] rows and as many cores, the 32-bit
    counter of core 1 wraps from row 1 to row 0 ([1 + (2^32 - 1) = 2^32]),
    which core 0 owns: the pair [(0, 1)] is produced by both cores. *)
Lemma Process_pairs_overlap :
  exists fuel l0 l1,
    Process_pairs fuel (mkKernelTiling (2 ^ 32 - 1) 8 F.two 8 (2 ^ 32 - 1) 1) 0 = Ok l0 /\
    Process_pairs fuel (mkKernelTiling (2 ^ 32 - 1) 8 F.two 8 (2 ^ 32 - 1) 1) 1 = Ok l1 /\
    In (0, 1) l0 /\ In (0, 1) l1.
Proof.
  set (td := mkKernelTiling (2 ^ 32 - 1) 8 F.two 8 (2 ^ 32 - 1) 1).
  assert (Hn : n td = 2 ^ 32 - 1) by reflexivity.
  assert (Hc : usedCoreNum td = 2 ^ 32 - 1) by reflexivity.
  assert (Wc0 : wrap32 (0 + (2 ^ 32 - 1)) = 2 ^ 32 - 1) by (vm_compute; reflexivity).
  assert (Wc1 : wrap32 (1 + (2 ^ 32 - 1)) = 0) by (vm_compute; reflexivity).
  assert (G0 : (0 >=? 2 ^ 32 - 1) = false) by (vm_compute; reflexivity).
  assert (G1 : (1 >=? 2 ^ 32 - 1) = false) by (vm_compute; reflexivity).
  remember (Z.to_nat (2 ^ 32)) as k0 eqn:Ek0.
  assert (Hk : (Z.to_nat (n td) < S (S (S k0)))%nat) by (rewrite Hn; lia).
  clearbody td. clear Ek0.
  exists (S (S (S k0))).
  exists (map (pair 0) (zrange (0 + 1) (n td)) ++ []).
  exists (map (pair 1) (zrange (1 + 1) (n td)) ++
          map (pair 0) (zrange (0 + 1) (n td)) ++ []).
  unfold Process_pairs, loop_nest. rewrite Hc, G0, G1.
  split; [|split; [|split]].
  - rewrite outer_pairs_step by lia. rewrite Hc, Wc0.
    rewrite outer_pairs_stop by lia. reflexivity.
  - rewrite outer_pairs_step by lia. rewrite Hc, Wc1.
    rewrite outer_pairs_step by lia. rewrite Hc, Wc0.
    rewrite outer_pairs_stop by lia. reflexivity.
  - rewrite in_app_iff. left. apply in_map. apply In_zrange. lia.
  - rewrite !in_app_iff. right. left. apply in_map. apply In_zrange. lia.
Qed.

(** the writes of [Process] go to the indices of the pairs enumerated *)
Lemma inner_loop_writes x td (fuel : nat) rowI i j ws :
  inner_loop (ComputeAndSave x td) td fuel rowI i j = Ok ws ->
  exists ps,
    inner_loop (fun _ i j => Ok (i, j)) td fuel tt i j = Ok ps /\
    map fst ws = map (fun ij => outIdx (n td) (fst ij) (snd ij)) ps.
Proof.
  revert j ws. induction fuel as [|fuel IH]; intros j ws H; [discriminate|].
  cbn [inner_loop] in *. destruct (j <? n td).
  - unfold ComputeAndSave at 1 in H.
    destruct (CopyRow x td j) as [rowJ| |]; cbn [bind] in H; try discriminate.
    destruct (inner_loop (ComputeAndSave x td) td fuel rowI i (wrap32 (j + 1)))
      as [ws'| |] eqn:E; cbn [bind] in H; try discriminate.
    injection H as <-. destruct (IH _ _ E) as (ps & Ep & Em).
    cbn [bind]. rewrite Ep. cbn [bind]. eexists. split; [reflexivity|].
    cbn [map fst snd]. f_equal. exact Em.
  - injection H as <-. exists []. split; reflexivity.
Qed.

Lemma outer_loop_writes x td (fuel_in fuel : nat) i ws :
  outer_loop (CopyRow x td) (ComputeAndSave x td) td fuel_in fuel i = Ok ws ->
  exists ps,
    outer_loop (fun _ => Ok tt) (fun _ i j => Ok (i, j)) td fuel_in fuel i = Ok ps /\
    map fst ws = map (fun ij => outIdx (n td) (fst ij) (snd ij)) ps.
Proof.
  revert i ws. induction fuel as [|fuel IH]; intros i ws H; [discriminate|].
  cbn [outer_loop] in *. destruct (i <? n td).
  - destruct (CopyRow x td i) as [rowI| |]; cbn [bind] in H; try discriminate.
    destruct (inner_loop (ComputeAndSave x td) td fuel_in rowI i (wrap32 (i + 1)))
      as [ws1| |] eqn:E1; cbn [bind] in H; try discriminate.
    destruct (outer_loop (CopyRow x td) (ComputeAndSave x td) td fuel_in fuel
                (wrap32 (i + usedCoreNum td))) as [ws2| |] eqn:E2;
      cbn [bind] in H; try discriminate.
    injection H as <-.
    destruct (inner_loop_writes _ _ _ _ _ _ _ E1) as (ps1 & Ep1 & Em1).
    destruct (IH _ _ E2) as (ps2 & Ep2 & Em2).
    cbn [bind]. rewrite Ep1. cbn [bind]. rewrite Ep2. cbn [bind].
    eexists. split; [reflexivity|]. rewrite !map_app. now f_equal.
  - injection H as <-. exists []. split; reflexivity.
Qed.

Lemma Process_writes (fuel : nat) x td u ws :
  Process fuel x td u = Ok ws ->
  exists ps,
    Process_pairs fuel td u = Ok ps /\
    map fst ws = map (fun ij => outIdx (n td) (fst ij) (snd ij)) ps.
Proof.
  unfold Process, Process_pairs, loop_nest. destruct (u >=? usedCoreNum td).
  - intros [= <-]. exists []. split; reflexivity.
  - apply outer_loop_writes.
Qed.

Lemma mapM_related {A B C} (f : A -> result B) (g : A -> result C)
    (R : B -> C -> Prop) (l : list A) :
  (forall a b, f a = Ok b -> exists c, g a = Ok c /\ R b c) ->
  forall bs, mapM f l = Ok bs ->
  exists cs, mapM g l = Ok cs /\ Forall2 R bs cs.
Proof.
  intros H. induction l as [|a l IH]; intros bs E; cbn [mapM] in *.
  - injection E as <-. exists []. split; [reflexivity | constructor].
  - destruct (f a) as [b| |] eqn:Ea; cbn [bind] in E; try discriminate.
    destruct (mapM f l) as [bs'| |]; cbn [bind] in E; try discriminate.
    injection E as <-.
    destruct (H _ _ Ea) as (c & Ec & Rc). destruct (IH _ eq_refl) as (cs & Ecs & Rcs).
    rewrite Ec. cbn [bind]. rewrite Ecs. cbn [bind].
    eexists. split; [reflexivity | now constructor].
Qed.

(** C1 (amended): for every [n] and [usedCoreNum >= 1] with
    [n + usedCoreNum <= 2^32], a launch of [usedCoreNum] cores finishes, core
    [u] enumerates exactly the pairs [(i, j)], [0 <= i < j < n], whose row [i]
    is [u] modulo [usedCoreNum], and all cores together enumerate every such
    pair exactly once: no duplicate, none left out.  With at most [2^31] rows
    the output indices of these pairs are pairwise distinct as well, and
    the writes of a launch on data go to exactly these indices, pair by
    pair. *)
Theorem cyclic_cover td :
  0 <= n td -> 1 <= usedCoreNum td -> n td + usedCoreNum td <= 2 ^ 32 ->
  exists fuel per_core,
    launch_pairs fuel td = Ok per_core /\
    Forall2 (fun u l => forall i j,
               In (i, j) l <-> (i mod usedCoreNum td = u /\ Spec.is_pair (n td) i j))
            (cores (usedCoreNum td)) per_core /\
    NoDup (concat per_core) /\
    (forall i j, In (i, j) (concat per_core) <-> Spec.is_pair (n td) i j) /\
    (n td <= 2 ^ 31 ->
     NoDup (map (fun ij => outIdx (n td) (fst ij) (snd ij)) (concat per_core))) /\
    (forall xGm writes,
       launch fuel xGm td = Ok writes ->
       map fst (concat writes)
       = map (fun ij => outIdx (n td) (fst ij) (snd ij)) (concat per_core)).
Proof.
  intros Hn Hc Hw. exists (S (Z.to_nat (n td))).
  destruct (mapM_Forall2 (Process_pairs (S (Z.to_nat (n td))) td)
              (fun u l => NoDup l /\
                 forall x, In x l <->
                   (fst x mod usedCoreNum td = u /\ Spec.is_pair (n td) (fst x) (snd x)))
              (cores (usedCoreNum td))) as (ls & E & F).
  { intros u Hu. apply In_zrange in Hu.
    destruct (Process_pairs_owned td Hn Hc Hw (S (Z.to_nat (n td))) u) as (l & El & ND & M);
      try lia.
    exists l. split; [exact El|]. split; [exact ND|]. intros [a b]. apply M. }
  exists ls. split; [exact E|].
  destruct (concat_owned (fun x : Z * Z => fst x mod usedCoreNum td)
              (fun x => Spec.is_pair (n td) (fst x) (snd x))
              (cores (usedCoreNum td)) ls (NoDup_zrange _ _) F) as (ND & M).
  assert (Mem : forall i j, In (i, j) (concat ls) <-> Spec.is_pair (n td) i j).
  { intros i j. rewrite (M (i, j)). cbn [fst snd]. split; [tauto|].
    intros P. split; [|exact P]. apply In_zrange.
    apply Z.mod_pos_bound. lia. }
  split; [|split; [exact ND | split; [exact Mem | split]]].
  - clear -F. induction F as [|u l us ls' [_ Hl] F IH]; [constructor|].
    constructor; [|exact IH]. intros i j. apply (Hl (i, j)).
  - intros H31. apply NoDup_map_on; [exact ND|].
    intros [i j] [i' j'] H1 H2. cbn [fst snd]. intros Eo.
    apply Mem in H1. apply Mem in H2.
    rewrite (outIdx_offset _ _ _ H31 H1), (outIdx_offset _ _ _ H31 H2) in Eo.
    destruct (offset_inj _ _ _ _ _ H1 H2 Eo). now subst.
  - intros xGm writes Ew. unfold launch in Ew.
    destruct (mapM_related _ (Process_pairs (S (Z.to_nat (n td))) td)
                (fun ws ps => map fst ws
                              = map (fun ij => outIdx (n td) (fst ij) (snd ij)) ps)
                _ (fun u ws => Process_writes _ xGm td u ws) _ Ew) as (cs & Ecs & Rcs).
    unfold launch_pairs in E. rewrite E in Ecs. injection Ecs as <-.
    clear -Rcs. induction Rcs as [|ws ps wss pss Hh _ IH]; [reflexivity|].
    cbn [concat]. rewrite !map_app, Hh, IH. reflexivity.
Qed.

Lemma cyclic_cover_witness :
  exists fuel per_core,
    launch_pairs fuel (mkKernelTiling 7 8 F.two 8 3 1) = Ok per_core /\
    NoDup (concat per_core).
Proof.
  destruct (cyclic_cover (mkKernelTiling 7 8 F.two 8 3 1))
    as (fuel & ls & E & _ & ND & _).
  - simpl. lia.
  - simpl. lia.
  - simpl. lia.
  - exists fuel, ls. split; assumption.
Defined.

(** ** The vector part of [ComputeAndSave] *)

Lemma take_idem len (v : list fp) : Vec.take len (Vec.take len v) = Vec.take len v.
Proof. unfold Vec.take. rewrite firstn_firstn. f_equal. lia. Qed.

Lemma take_zipWith f len (a b : list fp) :
  Vec.take len (Vec.zipWith f (Vec.take len a) (Vec.take len b))
  = Vec.zipWith f (Vec.take len a) (Vec.take len b).
Proof.
  unfold Vec.take. generalize (Z.to_nat len) as k.
  intros k. revert a b. induction k as [|k IH]; intros a b.
  - reflexivity.
  - destruct a as [|x a], b as [|y b]; try reflexivity.
    cbn [firstn Vec.zipWith]. f_equal. apply IH.
Qed.

Lemma take_map_take f len (v : list fp) :
  Vec.take len (map f (Vec.take len v)) = map f (Vec.take len v).
Proof. unfold Vec.take. rewrite firstn_map, firstn_firstn. do 2 f_equal. lia. Qed.

Lemma take_staged_diffs td rowI rowJ :
  Vec.take (tileLength td) (staged_diffs td rowI rowJ) = staged_diffs td rowI rowJ.
Proof.
  unfold staged_diffs.
  rewrite <- (take_zipWith F.sub (tileLength td) rowI rowJ) at 1.
  rewrite take_map_take, take_zipWith. reflexivity.
Qed.

(** [pair_value] with the counts of the intrinsics resolved: every
    intrinsic works on the first [tileLength] staged elements *)
Lemma pair_value_branches td rowI rowJ :
  pair_value td rowI rowJ =
  let d := staged_diffs td rowI rowJ in
  if F.eqb (p td) F.one then fold_right F.add F.zero d
  else if F.eqb (p td) F.two then
    F.sqrt (fold_right F.add F.zero (Vec.zipWith F.mul d d))
  else
    fold_right F.add F.zero
      (map F.exp (map (fun v => F.mul v (p td))
         (map F.ln (map (fun v => F.add v F.epsf) d)))).
Proof.
  unfold pair_value, Vec.Sub, Vec.Abs, Vec.ReduceSum, Vec.Mul, Vec.Sqrt1,
    Vec.Adds, Vec.Ln, Vec.Muls, Vec.Exp.
  rewrite take_zipWith. fold (staged_diffs td rowI rowJ).
  set (d := staged_diffs td rowI rowJ).
  assert (Ed : Vec.take (tileLength td) d = d) by apply take_staged_diffs.
  cbv zeta. rewrite !Ed.
  destruct (F.eqb (p td) F.one); [reflexivity|].
  destruct (F.eqb (p td) F.two).
  - rewrite <- Ed at 1 2. rewrite take_zipWith, Ed. reflexivity.
  - rewrite <- Ed at 1. rewrite !take_map_take, Ed. reflexivity.
Qed.

(** *** Finite data *)

Local Open Scope R_scope.

Lemma eqb_Fin_true x : F.eqb (Fin x) (Fin x) = true.
Proof. simpl. destruct (Req_dec_T x x); [reflexivity | contradiction]. Qed.

Lemma eqb_Fin_false x y : x <> y -> F.eqb (Fin x) (Fin y) = false.
Proof. intros H. simpl. destruct (Req_dec_T x y); [contradiction | reflexivity]. Qed.

Lemma sgn_pos x : 0 < x -> F.sgn x = Gt.
Proof.
  intros H. unfold F.sgn. destruct (total_order_T x 0) as [[L | E] | G]; try lra.
  reflexivity.
Qed.

Lemma sgn_neg x : x < 0 -> F.sgn x = Lt.
Proof.
  intros H. unfold F.sgn. destruct (total_order_T x 0) as [[L | E] | G]; try lra.
  reflexivity.
Qed.

Lemma sgn_zero : F.sgn 0 = Eq.
Proof.
  unfold F.sgn. destruct (total_order_T 0 0) as [[L | E] | G]; try lra.
  reflexivity.
Qed.

Lemma sgn_nonneg x : 0 <= x -> F.sgn x <> Lt.
Proof.
  intros H. unfold F.sgn. destruct (total_order_T x 0) as [[L | E] | G]; try lra;
    discriminate.
Qed.

Lemma eps_pos : 0 < F.eps.
Proof. unfold F.eps. apply Rinv_0_lt_compat. apply pow_lt. lra. Qed.

Lemma diffs_nonneg a b : Forall (fun d => 0 <= d) (Spec.diffs a b).
Proof.
  revert b. induction a as [|x a IH]; intros [|y b]; simpl; constructor.
  - apply Rabs_pos.
  - apply IH.
Qed.

Lemma zip_sub_abs_Fin a b :
  map F.abs (Vec.zipWith F.sub (map Fin a) (map Fin b)) = map Fin (Spec.diffs a b).
Proof.
  revert b. induction a as [|x a IH]; intros [|y b]; try reflexivity.
  cbn [map Vec.zipWith Spec.diffs]. f_equal. apply IH.
Qed.

Lemma staged_diffs_Fin td rowI rowJ a b :
  Vec.take (tileLength td) rowI = map Fin a ->
  Vec.take (tileLength td) rowJ = map Fin b ->
  staged_diffs td rowI rowJ = map Fin (Spec.diffs a b).
Proof. intros Ea Eb. unfold staged_diffs. rewrite Ea, Eb. apply zip_sub_abs_Fin. Qed.

Lemma sum_Fin l : fold_right F.add F.zero (map Fin l) = Fin (Spec.Rsum l).
Proof.
  induction l as [|x l IH]; [reflexivity|].
  cbn [map fold_right]. rewrite IH. reflexivity.
Qed.

Lemma zip_mul_Fin l :
  Vec.zipWith F.mul (map Fin l) (map Fin l) = map Fin (map (fun d => d * d) l).
Proof. induction l as [|x l IH]; [reflexivity|]. cbn [map Vec.zipWith]. rewrite IH. reflexivity. Qed.

Lemma Rsum_nonneg l : Forall (fun d => 0 <= d) l -> 0 <= Spec.Rsum l.
Proof.
  unfold Spec.Rsum. induction 1 as [|x l Hx _ IH]; cbn [fold_right]; lra.
Qed.

Lemma squares_nonneg l : Forall (fun d => 0 <= d) (map (fun d => d * d) l).
Proof.
  induction l as [|x l IH]; simpl; constructor; [nra | exact IH].
Qed.

Lemma generic_Fin q l :
  Forall (fun d => 0 <= d) l ->
  map F.exp (map (fun v => F.mul v (Fin q))
     (map F.ln (map (fun v => F.add v F.epsf) (map Fin l))))
  = map Fin (map (fun d => Rpower (d + F.eps) q) l).
Proof.
  induction 1 as [|d l Hd _ IH]; [reflexivity|].
  cbn [map]. rewrite IH. f_equal.
  pose proof eps_pos.
  unfold F.epsf. cbn [F.add F.ln]. rewrite sgn_pos by lra.
  cbn [F.mul F.exp]. unfold Rpower. do 2 f_equal. apply Rmult_comm.
Qed.

(** the three branches of the engine on finite staged rows *)
Lemma pair_value_p1 td rowI rowJ a b :
  p td = F.one ->
  Vec.take (tileLength td) rowI = map Fin a ->
  Vec.take (tileLength td) rowJ = map Fin b ->
  pair_value td rowI rowJ = Fin (Spec.manhattan a b).
Proof.
  intros Ep Ea Eb. rewrite pair_value_branches. cbv zeta.
  rewrite Ep. unfold F.one at 1 2. rewrite eqb_Fin_true.
  rewrite (staged_diffs_Fin td rowI rowJ a b Ea Eb). apply sum_Fin.
Qed.

Lemma pair_value_p2 td rowI rowJ a b :
  p td = F.two ->
  Vec.take (tileLength td) rowI = map Fin a ->
  Vec.take (tileLength td) rowJ = map Fin b ->
  pair_value td rowI rowJ = Fin (Spec.euclidean a b).
Proof.
  intros Ep Ea Eb. rewrite pair_value_branches. cbv zeta.
  rewrite Ep. unfold F.two at 1, F.one. rewrite eqb_Fin_false by lra.
  unfold F.two. rewrite eqb_Fin_true.
  rewrite (staged_diffs_Fin td rowI rowJ a b Ea Eb), zip_mul_Fin, sum_Fin.
  unfold Spec.euclidean. cbn [F.sqrt].
  pose proof (sgn_nonneg _ (Rsum_nonneg _ (squares_nonneg (Spec.diffs a b)))) as S.
  destruct (F.sgn _); try reflexivity. contradiction.
Qed.

Lemma pair_value_generic td rowI rowJ a b q :
  p td = Fin q -> q <> 1 -> q <> 2 ->
  Vec.take (tileLength td) rowI = map Fin a ->
  Vec.take (tileLength td) rowJ = map Fin b ->
  pair_value td rowI rowJ = Fin (Spec.unrooted q a b).
Proof.
  intros Ep H1 H2 Ea Eb. rewrite pair_value_branches. cbv zeta.
  rewrite Ep. unfold F.one, F.two. rewrite !eqb_Fin_false by assumption.
  rewrite (staged_diffs_Fin td rowI rowJ a b Ea Eb).
  rewrite generic_Fin by apply diffs_nonneg. apply sum_Fin.
Qed.

(** *** An infinite exponent *)

Lemma inf_element d :
  0 <= d ->
  let v := F.exp (F.mul (F.ln (F.add (Fin d) F.epsf)) PInf) in
  v = Fin 0 \/ v = PInf \/ v = NaN.
Proof.
  intros Hd. pose proof eps_pos.
  unfold F.epsf. cbn [F.add F.ln]. rewrite sgn_pos by lra.
  cbn [F.mul]. destruct (F.sgn (ln (d + F.eps))); cbn; auto.
Qed.

Lemma inf_sum l :
  Forall (fun d => 0 <= d) l ->
  let s := fold_right F.add F.zero
             (map (fun v => F.exp (F.mul (F.ln (F.add v F.epsf)) PInf)) (map Fin l)) in
  s = Fin 0 \/ s = PInf \/ s = NaN.
Proof.
  induction 1 as [|d l Hd _ IH]; cbv zeta in *.
  - left. reflexivity.
  - cbn [map fold_right].
    destruct (inf_element d Hd) as [-> | [-> | ->]];
      destruct IH as [-> | [-> | ->]]; cbn; auto.
    left. f_equal. lra.
Qed.

Lemma chebyshev_nonneg a b : 0 <= Spec.chebyshev a b.
Proof.
  unfold Spec.chebyshev. induction (Spec.diffs a b) as [|d l IH]; simpl; [lra|].
  eapply Rle_trans; [exact IH | apply Rmax_r].
Qed.

Lemma pair_value_inf td rowI rowJ :
  p td = PInf ->
  pair_value td rowI rowJ =
  fold_right F.add F.zero
    (map (fun v => F.exp (F.mul (F.ln (F.add v F.epsf)) PInf))
         (staged_diffs td rowI rowJ)).
Proof.
  intros Ep. rewrite pair_value_branches. cbv zeta. rewrite Ep.
  cbn [F.eqb F.one F.two]. rewrite !map_map. reflexivity.
Qed.

(** the reference on finite data: one step of the maximum loop *)
Lemma cpu_max_step x mm i j k ks acc u v :
  read x (i * mm + k)%Z = Ok (Fin u) ->
  read x (j * mm + k)%Z = Ok (Fin v) ->
  cpu_max x mm i j (k :: ks) (Fin acc)
  = cpu_max x mm i j ks (Fin (Rmax acc (Rabs (u - v)))).
Proof.
  intros Eu Ev. cbn [cpu_max]. unfold cpu_diff. rewrite Eu, Ev. cbn [bind].
  cbn [F.sub F.neg F.add F.abs F.gtb]. fold (u - v).
  destruct (Rlt_dec acc (Rabs (u - v))) as [L | G].
  - rewrite Rmax_right by lra. reflexivity.
  - rewrite Rmax_left by lra. reflexivity.
Qed.

Lemma Rabs_0_sub x : 0 <= x -> Rabs (0 - x) = x.
Proof. intros H. replace (0 - x) with (- x) by lra. rewrite Rabs_Ropp. now apply Rabs_right, Rle_ge. Qed.

(** C9: with [p = +inf] the engine takes the generic branch: neither
    [p == 1.0f] nor [p == 2.0f] holds, and [ComputeAndSave] returns the sum
    of [exp (ln (|d| + 1e-20) * inf)] over the staged elements without
    failing.  On finite rows that sum is 0, [+inf] or NaN, hence never a
    positive Chebyshev distance.  The reference [cpu_pair] takes its
    [is_inf] branch, the running maximum of the absolute differences.  For
    the rows [0,0,0,0,0,0,0,0] and [3,4,0,0,0,0,0,0] the engine yields
    [+inf] and the reference 4. *)
Theorem infinite_p_not_chebyshev td rowI rowJ a b :
  p td = PInf ->
  Vec.take (tileLength td) rowI = map Fin a ->
  Vec.take (tileLength td) rowJ = map Fin b ->
  (F.eqb (p td) F.one = false /\ F.eqb (p td) F.two = false) /\
  pair_value td rowI rowJ =
    Vec.ReduceSum
      (Vec.Exp (Vec.Muls (Vec.Ln (Vec.Adds (staged_diffs td rowI rowJ) F.epsf
                                           (tileLength td))
                                 (tileLength td)) (p td) (tileLength td))
               (tileLength td)) (tileLength td) /\
  (forall xGm i j rowJ',
     CopyRow xGm td j = Ok rowJ' ->
     ComputeAndSave xGm td rowI i j = Ok (outIdx (n td) i j, pair_value td rowI rowJ')) /\
  (pair_value td rowI rowJ = Fin 0 \/ pair_value td rowI rowJ = PInf \/
   pair_value td rowI rowJ = NaN) /\
  (0 < Spec.chebyshev a b -> pair_value td rowI rowJ <> Fin (Spec.chebyshev a b)) /\
  (forall pow x mm i j,
     cpu_pair pow x mm PInf i j = cpu_max x mm i j (zrange 0 mm) F.zero) /\
  (forall pow,
     cpu_pair pow (map Fin [0; 0; 0; 0; 0; 0; 0; 0; 3; 4; 0; 0; 0; 0; 0; 0]) 8 PInf 0 1
     = Ok (Fin 4)) /\
  Spec.chebyshev [0; 0; 0; 0; 0; 0; 0; 0] [3; 4; 0; 0; 0; 0; 0; 0] = 4 /\
  pair_value (mkKernelTiling 2 8 PInf 8 1 1)
    (map Fin [0; 0; 0; 0; 0; 0; 0; 0]) (map Fin [3; 4; 0; 0; 0; 0; 0; 0]) = PInf.
Proof.
  intros Ep Ea Eb.
  assert (V : pair_value td rowI rowJ = Fin 0 \/ pair_value td rowI rowJ = PInf \/
              pair_value td rowI rowJ = NaN).
  { rewrite (pair_value_inf td rowI rowJ Ep).
    rewrite (staged_diffs_Fin td rowI rowJ a b Ea Eb).
    apply inf_sum, diffs_nonneg. }
  split; [rewrite Ep; split; reflexivity|].
  split.
  { unfold pair_value. rewrite Ep. cbn [F.eqb F.one F.two].
    unfold staged_diffs, Vec.Sub, Vec.Abs. rewrite take_zipWith. reflexivity. }
  split.
  { intros xGm i j rowJ' E. unfold ComputeAndSave. rewrite E. reflexivity. }
  split; [exact V|].
  split.
  { intros Hc. destruct V as [-> | [-> | ->]]; try discriminate.
    intros [= E]. lra. }
  split.
  { intros pow x mm i j. reflexivity. }
  split.
  { intros pow. unfold cpu_pair. cbn [F.isinf].
    change (zrange 0 8) with [0; 1; 2; 3; 4; 5; 6; 7]%Z. unfold F.zero.
    repeat (erewrite cpu_max_step by reflexivity).
    cbn [cpu_max]. do 2 f_equal.
    replace (0 - 0) with 0 by lra. rewrite Rabs_R0, !Rabs_0_sub by lra.
    rewrite (Rmax_right 0 3) by lra. rewrite (Rmax_right 3 4) by lra.
    rewrite !(Rmax_left 4 0) by lra. reflexivity. }
  split.
  { unfold Spec.chebyshev. cbn [Spec.diffs fold_right].
    replace (0 - 0) with 0 by lra. rewrite Rabs_R0, !Rabs_0_sub by lra.
    rewrite !(Rmax_left 0 0) by lra.
    rewrite (Rmax_left 4 0) by lra. rewrite (Rmax_right 3 4) by lra. reflexivity. }
  rewrite pair_value_inf by reflexivity.
  rewrite (staged_diffs_Fin _ _ _ [0; 0; 0; 0; 0; 0; 0; 0] [3; 4; 0; 0; 0; 0; 0; 0])
    by reflexivity.
  cbn [Spec.diffs map fold_right].
  replace (0 - 0) with 0 by lra. rewrite Rabs_R0, !Rabs_0_sub by lra.
  pose proof eps_pos as He.
  assert (Hsmall : F.eps < 1).
  { unfold F.eps. rewrite <- Rinv_1. apply Rinv_lt_contravar; lra. }
  assert (E0 : F.exp (F.mul (F.ln (F.add (Fin 0) F.epsf)) PInf) = Fin 0).
  { unfold F.epsf. cbn [F.add F.ln]. rewrite sgn_pos by lra. cbn [F.mul].
    rewrite sgn_neg; [reflexivity|].
    assert (L : ln (0 + F.eps) < ln 1) by (apply ln_increasing; lra).
    rewrite ln_1 in L. exact L. }
  assert (Ebig : forall d, 1 <= d -> F.exp (F.mul (F.ln (F.add (Fin d) F.epsf)) PInf) = PInf).
  { intros d Hd. unfold F.epsf. cbn [F.add F.ln]. rewrite sgn_pos by lra. cbn [F.mul].
    rewrite sgn_pos; [reflexivity|].
    assert (L : ln 1 < ln (d + F.eps)) by (apply ln_increasing; lra).
    rewrite ln_1 in L. exact L. }
  rewrite E0, !Ebig by lra. reflexivity.
Qed.

Lemma infinite_p_not_chebyshev_witness :
  pair_value (mkKernelTiling 2 8 PInf 8 1 1)
    (map Fin [0; 0; 0; 0; 0; 0; 0; 0]) (map Fin [3; 4; 0; 0; 0; 0; 0; 0])
  <> Fin (Spec.chebyshev [0; 0; 0; 0; 0; 0; 0; 0] [3; 4; 0; 0; 0; 0; 0; 0]).
Proof.
  destruct (infinite_p_not_chebyshev (mkKernelTiling 2 8 PInf 8 1 1)
              (map Fin [0; 0; 0; 0; 0; 0; 0; 0]) (map Fin [3; 4; 0; 0; 0; 0; 0; 0])
              [0; 0; 0; 0; 0; 0; 0; 0] [3; 4; 0; 0; 0; 0; 0; 0]
              eq_refl eq_refl eq_refl)
    as (_ & _ & _ & _ & H & _ & _ & Hc & _).
  apply H. rewrite Hc. lra.
Defined.

Local Close Scope R_scope.

(** ** Row fetches and the bounds of the input *)

Lemma CopyRow_Ok_iff x td r :
  (exists row, CopyRow x td r = Ok row) <->
  wrap32 (r * m td) + tileLength td <= Z.of_nat (length x).
Proof.
  unfold CopyRow, Vec.DataCopy.
  destruct (Z.leb_spec (wrap32 (r * m td) + tileLength td) (Z.of_nat (length x))).
  - split; [intros _; assumption | intros _; eexists; reflexivity].
  - split; [intros [row E]; discriminate | lia].
Qed.

Lemma CopyRow_fault x td r :
  Z.of_nat (length x) < wrap32 (r * m td) + tileLength td ->
  CopyRow x td r = OutOfBounds.
Proof.
  intros H. unfold CopyRow, Vec.DataCopy.
  destruct (Z.leb_spec (wrap32 (r * m td) + tileLength td) (Z.of_nat (length x)));
    [lia | reflexivity].
Qed.

(** a row whose byte size is not a multiple of 32 is staged with more
    elements than it has *)
Lemma alignedRowLength_gt mm :
  0 <= mm -> (mm * 4) mod 32 <> 0 -> mm < Spec.alignedRowLength mm 4.
Proof.
  intros Hm Hr. unfold Spec.alignedRowLength. rewrite ceil_div_32.
  pose proof (Z.div_mod (mm * 4) 32 ltac:(lia)).
  pose proof (Z.mod_pos_bound (mm * 4) 32 ltac:(lia)).
  pose proof (Z.div_mod (mm * 4 + 31) 32 ltac:(lia)).
  pose proof (Z.mod_pos_bound (mm * 4 + 31) 32 ltac:(lia)).
  set (q := (mm * 4 + 31) / 32) in *.
  replace (q * 32) with (q * 8 * 4) by lia. rewrite Z.div_mul by lia. lia.
Qed.

(** C10, evaluated on the code: [CopyRow] reads the [tileLength] elements
    from [rowIdx * m] on.  For 32-bit rows whose byte size is not a multiple
    of 32 the planner's [tileLength] exceeds [m], so the fetch of the last
    row [n - 1] ends after the [n * m] elements of the input: it is out of
    bounds, whatever the content of the input.  For [n = 4], [m = 2] the
    fetch of row 3 covers the indices [6 .. 13] of an 8-element input. *)
Theorem last_row_fetch_out_of_bounds ctx total x :
  platformInfo ctx = Some total ->
  dtype ctx = DT_FLOAT ->
  1 <= dim0 ctx -> 1 <= dim1 ctx ->
  (dim1 ctx * 4) mod 32 <> 0 ->
  dim1 ctx * 4 <= 2 ^ 32 - 32 ->
  dim0 ctx * dim1 ctx < 2 ^ 32 ->
  Z.of_nat (length x) = dim0 ctx * dim1 ctx ->
  exists td,
    TilingFunc ctx = Some td /\
    t_m td < t_tileLength td /\
    dim0 ctx * dim1 ctx < (dim0 ctx - 1) * dim1 ctx + t_tileLength td /\
    CopyRow x (load_tiling td) (dim0 ctx - 1) = OutOfBounds /\
    tileLength_of 2 4 = 8 /\ 4 * 2 < 3 * 2 + tileLength_of 2 4.
Proof.
  intros Hp Hd Hn Hm Hr Hb4 Hb Hx.
  pose proof (alignedRowLength_gt (dim1 ctx) ltac:(lia) Hr) as G.
  assert (Em : wrap32 (dim1 ctx) = dim1 ctx) by (apply wrap32_small; lia).
  assert (Et : tileLength_of (dim1 ctx) 4 = Spec.alignedRowLength (dim1 ctx) 4)
    by (apply tileLength_of_spec; lia).
  unfold TilingFunc. rewrite Hp, Hd. cbn [typeSize_of].
  eexists. split; [reflexivity|]. cbn [t_m t_tileLength].
  rewrite Em, Et.
  split; [exact G|]. split; [lia|]. split.
  - apply CopyRow_fault. unfold load_tiling. cbn [m tileLength t_m t_tileLength].
    rewrite Hx. rewrite wrap32_small by nia. lia.
  - split; vm_compute; reflexivity.
Qed.

Lemma last_row_fetch_out_of_bounds_witness :
  exists td,
    TilingFunc (mkContext None 4 2 (Some 8) DT_FLOAT) = Some td /\
    CopyRow (map Fin [0; 0; 3; 4; 0; 0; 6; 8]%R) (load_tiling td) 3 = OutOfBounds.
Proof.
  destruct (last_row_fetch_out_of_bounds (mkContext None 4 2 (Some 8) DT_FLOAT) 8
              (map Fin [0; 0; 3; 4; 0; 0; 6; 8]%R))
    as (td & E & _ & _ & Hf & _);
    [ reflexivity | reflexivity | cbn; lia | cbn; lia | vm_compute; discriminate
    | cbn; lia | cbn; lia | reflexivity | ].
  exists td. split; [exact E | exact Hf].
Defined.

(** C8, evaluated on the code: [Init] casts [x] and [y] to [float] pointers
    whatever the element type, so the engine reads and writes 4-byte
    elements also when the tensors hold 16-bit floats.  For a 16-bit input of
    2 rows of 16 elements (64 bytes, row 1 at bytes 32 .. 63) the planner
    gives [tileLength = 16] and [CopyRow] reads row 1 as the 64 bytes from
    byte 64 on, past the end of the input. *)
Theorem half_precision_read_as_float :
  kernel_elem_bytes <> typeSize_of DT_FLOAT16 /\
  exists td,
    TilingFunc (mkContext None 2 16 (Some 1) DT_FLOAT16) = Some td /\
    t_tileLength td = 16 /\
    input_bytes DT_FLOAT16 2 16 = 64 /\
    row_bytes DT_FLOAT16 16 1 = (32, 32) /\
    CopyRow_bytes (load_tiling td) 1 = (64, 64) /\
    (forall out_idx, kernel_elem_bytes * out_idx <> typeSize_of DT_FLOAT16 * out_idx
                     \/ out_idx = 0).
Proof.
  split; [discriminate|].
  exists (mkTiling 2 16 F.two 16 1 1).
  split; [vm_compute; reflexivity|].
  split; [reflexivity|].
  split; [vm_compute; reflexivity|].
  split; [vm_compute; reflexivity|].
  split; [vm_compute; reflexivity|].
  intros k. unfold kernel_elem_bytes. cbn [typeSize_of]. lia.
Qed.

(** ** The staged elements beyond the row *)

Local Open Scope R_scope.

Lemma Rabs_sub_0 x : 0 <= x -> Rabs (x - 0) = x.
Proof. intros H. replace (x - 0) with x by lra. now apply Rabs_right, Rle_ge. Qed.

Lemma sqrt_neq r c : 0 <= r -> r <> c * c -> sqrt r <> c.
Proof. intros Hr Hne E. apply Hne. rewrite <- E. symmetry. now apply sqrt_sqrt. Qed.

(** C5, evaluated on the code: 5 rows of [m = 2] 32-bit elements are staged
    with [tileLength = 8] elements each, the 6 elements after a row being the
    following rows.  All reads of the pair [(0, 1)] are inside the input, and
    the reduction runs over the 8 staged elements: for the rows [0,0] and
    [3,4] the engine writes 42 with [p = 1] and [sqrt 250] with [p = 2],
    where the first [m] elements alone give 7 and 5. *)
Theorem padding_enters_reduction :
  let x := map Fin [0; 0; 3; 4; 0; 0; 6; 8; 0; 0] in
  let rowI := map Fin [0; 0; 3; 4; 0; 0; 6; 8] in
  let td1 := mkTiling 5 2 F.one 8 1 1 in
  let td2 := mkTiling 5 2 F.two 8 1 1 in
  TilingFunc (mkContext (Some F.one) 5 2 (Some 8%Z) DT_FLOAT) = Some td1 /\
  TilingFunc (mkContext (Some F.two) 5 2 (Some 8%Z) DT_FLOAT) = Some td2 /\
  CopyRow x (load_tiling td1) 0 = Ok rowI /\
  CopyRow x (load_tiling td2) 0 = Ok rowI /\
  ComputeAndSave x (load_tiling td1) rowI 0 1 = Ok (0%Z, Fin 42) /\
  ComputeAndSave x (load_tiling td2) rowI 0 1 = Ok (0%Z, Fin (sqrt 250)) /\
  Spec.manhattan [0; 0] [3; 4] = 7 /\
  Spec.euclidean [0; 0] [3; 4] = 5 /\
  sqrt 250 <> 5.
Proof.
  cbv zeta.
  assert (D : Spec.diffs [0; 0; 3; 4; 0; 0; 6; 8] [3; 4; 0; 0; 6; 8; 0; 0]
              = [3; 4; 3; 4; 6; 8; 6; 8]).
  { cbn [Spec.diffs]. rewrite !Rabs_0_sub, !Rabs_sub_0 by lra. reflexivity. }
  assert (O : outIdx 5 0 1 = 0%Z) by (vm_compute; reflexivity).
  assert (D2 : Spec.diffs [0; 0] [3; 4] = [3; 4]).
  { cbn [Spec.diffs]. rewrite !Rabs_0_sub by lra. reflexivity. }
  split; [vm_compute; reflexivity|]. split; [vm_compute; reflexivity|].
  split; [reflexivity|]. split; [reflexivity|].
  split; [|split; [|split; [|split]]].
  - unfold ComputeAndSave.
    change (CopyRow (map Fin [0; 0; 3; 4; 0; 0; 6; 8; 0; 0])
              (load_tiling (mkTiling 5 2 F.one 8 1 1)) 1)
      with (Ok (map Fin [3; 4; 0; 0; 6; 8; 0; 0])).
    cbn [bind].
    rewrite (pair_value_p1 _ _ _ [0; 0; 3; 4; 0; 0; 6; 8] [3; 4; 0; 0; 6; 8; 0; 0])
      by reflexivity.
    unfold Spec.manhattan. rewrite D. unfold Spec.Rsum. cbn [fold_right].
    change (n (load_tiling (mkTiling 5 2 F.one 8 1 1))) with 5%Z. rewrite O.
    match goal with |- Ok (_, Fin ?s) = _ => replace s with 42 by lra end.
    reflexivity.
  - unfold ComputeAndSave.
    change (CopyRow (map Fin [0; 0; 3; 4; 0; 0; 6; 8; 0; 0])
              (load_tiling (mkTiling 5 2 F.two 8 1 1)) 1)
      with (Ok (map Fin [3; 4; 0; 0; 6; 8; 0; 0])).
    cbn [bind].
    rewrite (pair_value_p2 _ _ _ [0; 0; 3; 4; 0; 0; 6; 8] [3; 4; 0; 0; 6; 8; 0; 0])
      by reflexivity.
    unfold Spec.euclidean. rewrite D. unfold Spec.Rsum. cbn [map fold_right].
    change (n (load_tiling (mkTiling 5 2 F.two 8 1 1))) with 5%Z. rewrite O.
    match goal with |- Ok (_, Fin (sqrt ?s)) = _ => replace s with 250 by lra end.
    reflexivity.
  - unfold Spec.manhattan. rewrite D2. unfold Spec.Rsum. cbn [fold_right]. lra.
  - unfold Spec.euclidean. rewrite D2. unfold Spec.Rsum. cbn [map fold_right].
    replace (3 * 3 + (4 * 4 + 0)) with (5 * 5) by lra. apply sqrt_square. lra.
  - apply sqrt_neq; lra.
Qed.

Lemma Rpower_3 x : 0 < x -> Rpower x 3 = x * x * x.
Proof.
  intros H. replace 3 with (INR 3) by (simpl; lra).
  rewrite Rpower_pow by exact H. simpl. ring.
Qed.

Lemma eps_small : F.eps < / 1000.
Proof. unfold F.eps. apply Rinv_lt_contravar; lra. Qed.

(** C4, evaluated on the code: with [p = 3] the generic branch of
    [ComputeAndSave] takes no root and returns the sum of
    [exp (p * ln (|d| + 1e-20))], but over the [tileLength] staged elements.
    For 5 rows of [m = 2] elements, rows [0,0] and [3,4] are staged as
    [0,0,3,4,0,0,6,8] and [3,4,0,0,6,8,0,0] (all reads in bounds) and the
    value written for the pair [(0, 1)] is the sum over these 8 elements,
    above 1638, where the sum over the elements of the two rows is below
    92. *)
Theorem generic_branch_sums_staged :
  let x := map Fin [0; 0; 3; 4; 0; 0; 6; 8; 0; 0] in
  let rowI := map Fin [0; 0; 3; 4; 0; 0; 6; 8] in
  let td := mkTiling 5 2 (Fin 3) 8 1 1 in
  TilingFunc (mkContext (Some (Fin 3)) 5 2 (Some 8%Z) DT_FLOAT) = Some td /\
  CopyRow x (load_tiling td) 0 = Ok rowI /\
  CopyRow x (load_tiling td) 1 = Ok (map Fin [3; 4; 0; 0; 6; 8; 0; 0]) /\
  ComputeAndSave x (load_tiling td) rowI 0 1
  = Ok (0%Z, Fin (Spec.unrooted 3 [0; 0; 3; 4; 0; 0; 6; 8] [3; 4; 0; 0; 6; 8; 0; 0])) /\
  1638 < Spec.unrooted 3 [0; 0; 3; 4; 0; 0; 6; 8] [3; 4; 0; 0; 6; 8; 0; 0] /\
  Spec.unrooted 3 [0; 0] [3; 4] < 92.
Proof.
  cbv zeta.
  assert (D : Spec.diffs [0; 0; 3; 4; 0; 0; 6; 8] [3; 4; 0; 0; 6; 8; 0; 0]
              = [3; 4; 3; 4; 6; 8; 6; 8]).
  { cbn [Spec.diffs]. rewrite !Rabs_0_sub, !Rabs_sub_0 by lra. reflexivity. }
  assert (D2 : Spec.diffs [0; 0] [3; 4] = [3; 4]).
  { cbn [Spec.diffs]. rewrite !Rabs_0_sub by lra. reflexivity. }
  assert (O : outIdx 5 0 1 = 0%Z) by (vm_compute; reflexivity).
  pose proof eps_pos as He. pose proof eps_small as Hs.
  split; [vm_compute; reflexivity|]. split; [reflexivity|]. split; [reflexivity|].
  split; [|split].
  - unfold ComputeAndSave.
    change (CopyRow (map Fin [0; 0; 3; 4; 0; 0; 6; 8; 0; 0])
              (load_tiling (mkTiling 5 2 (Fin 3) 8 1 1)) 1)
      with (Ok (map Fin [3; 4; 0; 0; 6; 8; 0; 0])).
    cbn [bind].
    rewrite (pair_value_generic _ _ _ [0; 0; 3; 4; 0; 0; 6; 8] [3; 4; 0; 0; 6; 8; 0; 0] 3)
      by (try reflexivity; lra).
    change (n (load_tiling (mkTiling 5 2 (Fin 3) 8 1 1))) with 5%Z. rewrite O.
    reflexivity.
  - unfold Spec.unrooted. rewrite D. unfold Spec.Rsum. cbn [map fold_right].
    rewrite !Rpower_3 by lra. nra.
  - unfold Spec.unrooted. rewrite D2. unfold Spec.Rsum. cbn [map fold_right].
    rewrite !Rpower_3 by lra. nra.
Qed.

Lemma CopyRow_in x td r :
  (wrap32 (r * m td) + tileLength td <= Z.of_nat (length x))%Z ->
  CopyRow x td r
  = Ok (Vec.take (tileLength td) (skipn (Z.to_nat (wrap32 (r * m td))) x)).
Proof.
  intros H. unfold CopyRow, Vec.DataCopy.
  destruct (Z.leb_spec (wrap32 (r * m td) + tileLength td) (Z.of_nat (length x)));
    [reflexivity | lia].
Qed.

(** the square of an absolute difference with a finite value is a
    non-negative number, [+inf] or a NaN *)
Lemma square_diff_class c g :
  let s := F.mul (F.abs (F.sub (Fin c) g)) (F.abs (F.sub (Fin c) g)) in
  (exists r, 0 <= r /\ s = Fin r) \/ s = PInf \/ s = NaN.
Proof.
  destruct g as [y | | |]; cbn [F.sub F.neg F.add F.abs F.mul]; auto.
  left. exists (Rabs (c + - y) * Rabs (c + - y)). split; [|reflexivity].
  pose proof (Rabs_pos (c + - y)). nra.
Qed.

(** C3, evaluated on the code: in the end-to-end scenario ([n = 4], [m = 2],
    [p = 2], rows [0,0], [3,4], [0,0], [6,8]) the planner gives
    [tileLength = 8]; row 0 is staged as the whole input and the fetch of
    row 1 reads the indices [2 .. 9] of the 8-element input, so the launch
    leaves the input at its first pair.  Whatever the two elements after the
    input are, the value written for the pair [(0, 1)] is not 5, the Euclidean
    distance of [0,0] and [3,4]. *)
Theorem end_to_end_scenario :
  let x := map Fin [0; 0; 3; 4; 0; 0; 6; 8] in
  let td := mkTiling 4 2 F.two 8 1 1 in
  TilingFunc (mkContext None 4 2 (Some 8%Z) DT_FLOAT) = Some td /\
  (forall fuel, launch (S fuel) x (load_tiling td) = OutOfBounds) /\
  (forall g0 g1 rest, exists v,
     CopyRow (x ++ g0 :: g1 :: rest) (load_tiling td) 0 = Ok x /\
     ComputeAndSave (x ++ g0 :: g1 :: rest) (load_tiling td) x 0 1 = Ok (0%Z, v) /\
     v <> Fin 5) /\
  Spec.euclidean [0; 0] [3; 4] = 5.
Proof.
  cbv zeta.
  split; [vm_compute; reflexivity|].
  split; [intros fuel; reflexivity|].
  split.
  - intros g0 g1 rest.
    set (x := map Fin [0; 0; 3; 4; 0; 0; 6; 8]).
    set (td := load_tiling (mkTiling 4 2 F.two 8 1 1)).
    assert (L : Z.of_nat (length (x ++ g0 :: g1 :: rest))
                = (10 + Z.of_nat (length rest))%Z).
    { rewrite length_app. cbn [length x map]. lia. }
    assert (W0 : wrap32 (0 * m td) = 0%Z) by (vm_compute; reflexivity).
    assert (W1 : wrap32 (1 * m td) = 2%Z) by (vm_compute; reflexivity).
    assert (T : tileLength td = 8%Z) by reflexivity.
    assert (O : outIdx (n td) 0 1 = 0%Z) by (vm_compute; reflexivity).
    assert (R0 : CopyRow (x ++ g0 :: g1 :: rest) td 0 = Ok x).
    { rewrite CopyRow_in by (rewrite W0, T, L; lia). rewrite W0, T. reflexivity. }
    assert (R1 : CopyRow (x ++ g0 :: g1 :: rest) td 1
                 = Ok (map Fin [3; 4; 0; 0; 6; 8] ++ [g0; g1])).
    { rewrite CopyRow_in by (rewrite W1, T, L; lia). rewrite W1, T. reflexivity. }
    eexists. split; [exact R0|]. split.
    + unfold ComputeAndSave. rewrite R1. cbn [bind]. rewrite O. reflexivity.
    + rewrite pair_value_branches. cbv zeta.
      change (F.eqb (p td) F.one) with (F.eqb (Fin 2) (Fin 1)).
      change (F.eqb (p td) F.two) with (F.eqb (Fin 2) (Fin 2)).
      rewrite eqb_Fin_false by lra. rewrite eqb_Fin_true.
      change (staged_diffs td x (map Fin [3; 4; 0; 0; 6; 8] ++ [g0; g1]))
        with (map F.abs (Vec.zipWith F.sub (map Fin [0; 0; 3; 4; 0; 0])
                           (map Fin [3; 4; 0; 0; 6; 8]))
              ++ [F.abs (F.sub (Fin 6) g0); F.abs (F.sub (Fin 8) g1)]).
      rewrite zip_sub_abs_Fin.
      assert (D : Spec.diffs [0; 0; 3; 4; 0; 0] [3; 4; 0; 0; 6; 8] = [3; 4; 3; 4; 6; 8]).
      { cbn [Spec.diffs]. rewrite !Rabs_0_sub, !Rabs_sub_0 by lra. reflexivity. }
      rewrite D. cbn [map app Vec.zipWith fold_right].
      destruct (square_diff_class 6 g0) as [(r0 & H0 & ->) | [-> | ->]];
        destruct (square_diff_class 8 g1) as [(r1 & H1 & ->) | [-> | ->]];
        cbn [F.mul F.add F.zero F.sqrt]; try discriminate.
      rewrite sgn_pos by lra. intros [= E]. revert E. apply sqrt_neq; lra.
  - assert (D2 : Spec.diffs [0; 0] [3; 4] = [3; 4]).
    { cbn [Spec.diffs]. rewrite !Rabs_0_sub by lra. reflexivity. }
    unfold Spec.euclidean. rewrite D2. unfold Spec.Rsum. cbn [map fold_right].
    replace (3 * 3 + (4 * 4 + 0)) with (5 * 5) by lra. apply sqrt_square. lra.
Qed.

(* ================================================================== *)
(** * Further properties of the planner, the engine and the harness *)

Local Close Scope R_scope.

(** ** The planner *)

(** The block dimension is never zero and never exceeds the cores of the
    platform; with at least one row it does not exceed the number of rows
    either, so that every launched core owns a row. *)
Theorem TilingFunc_blockDim_bounds ctx total :
  platformInfo ctx = Some total ->
  is_u32 (dim0 ctx) -> 1 <= total < 2 ^ 32 ->
  exists td,
    TilingFunc ctx = Some td /\
    1 <= t_usedCoreNum td <= total /\
    (1 <= dim0 ctx -> t_usedCoreNum td <= t_n td) /\
    (forall u, 0 <= u < t_usedCoreNum td -> 1 <= t_n td -> u < t_n td).
Proof.
  intros Hp Hn Ht. unfold TilingFunc. rewrite Hp.
  eexists. split; [reflexivity|]. cbn [t_n t_usedCoreNum].
  rewrite (wrap32_small total) by lia. rewrite (wrap32_small (dim0 ctx) Hn).
  unfold usedCoreNum_of.
  destruct (Z.ltb_spec (dim0 ctx) total); repeat split; intros; lia.
Qed.

Lemma TilingFunc_blockDim_bounds_witness :
  exists td,
    TilingFunc (mkContext None 100 8 (Some 8) DT_FLOAT) = Some td /\
    1 <= t_usedCoreNum td <= 8.
Proof.
  destruct (TilingFunc_blockDim_bounds (mkContext None 100 8 (Some 8) DT_FLOAT) 8)
    as (td & E & B & _).
  - reflexivity.
  - unfold is_u32. cbn [dim0]. lia.
  - lia.
  - exists td. split; [exact E | exact B].
Defined.

Lemma alignedRowLength_tight mm ts :
  (ts = 4 \/ ts = 2) -> 0 <= mm ->
  Spec.alignedRowLength mm ts - mm < 32 / ts /\
  (Spec.alignedRowLength mm ts = mm <-> (mm * ts) mod 32 = 0).
Proof.
  intros Hts Hm. unfold Spec.alignedRowLength. rewrite ceil_div_32.
  pose proof (Z.div_mod (mm * ts) 32 ltac:(lia)).
  pose proof (Z.mod_pos_bound (mm * ts) 32 ltac:(lia)).
  pose proof (Z.div_mod (mm * ts + 31) 32 ltac:(lia)).
  pose proof (Z.mod_pos_bound (mm * ts + 31) 32 ltac:(lia)).
  set (q := (mm * ts + 31) / 32) in *.
  destruct Hts; subst ts.
  - replace (q * 32) with (q * 8 * 4) by lia. rewrite Z.div_mul by lia.
    change (32 / 4) with 8. lia.
  - replace (q * 32) with (q * 16 * 2) by lia. rewrite Z.div_mul by lia.
    change (32 / 2) with 16. lia.
Qed.

(** The planner pads a row by less than one 32-byte unit, and by nothing
    exactly when the row's byte size is a multiple of 32. *)
Theorem TilingFunc_padding ctx total :
  platformInfo ctx = Some total ->
  1 <= dim1 ctx ->
  dim1 ctx * typeSize_of (dtype ctx) <= 2 ^ 32 - 32 ->
  exists td,
    TilingFunc ctx = Some td /\
    0 <= t_tileLength td - t_m td < 32 / typeSize_of (dtype ctx) /\
    (t_tileLength td = t_m td <->
     (dim1 ctx * typeSize_of (dtype ctx)) mod 32 = 0).
Proof.
  intros Hp Hm Hb. unfold TilingFunc. rewrite Hp.
  assert (Hts : typeSize_of (dtype ctx) = 4 \/ typeSize_of (dtype ctx) = 2)
    by (destruct (dtype ctx); simpl; lia).
  assert (Hm32 : wrap32 (dim1 ctx) = dim1 ctx) by (apply wrap32_small; lia).
  eexists. split; [reflexivity|]. cbn [t_m t_tileLength].
  rewrite Hm32, tileLength_of_spec by lia.
  pose proof (alignedRowLength_ge (dim1 ctx) _ Hts ltac:(lia)).
  destruct (alignedRowLength_tight (dim1 ctx) _ Hts ltac:(lia)) as [T I].
  split; [lia | exact I].
Qed.

Lemma TilingFunc_padding_witness :
  exists td,
    TilingFunc (mkContext None 4 24 (Some 8) DT_FLOAT) = Some td /\
    t_tileLength td = t_m td.
Proof.
  destruct (TilingFunc_padding (mkContext None 4 24 (Some 8) DT_FLOAT) 8)
    as (td & E & _ & I).
  - reflexivity.
  - cbn [dim1]. lia.
  - cbn [dim1 dtype typeSize_of]. lia.
  - exists td. split; [exact E|]. apply I. reflexivity.
Defined.

(** ** The order of the pairs and the output index *)

Lemma zrange_app a b c : a <= b <= c -> zrange a b ++ zrange b c = zrange a c.
Proof.
  intros [Hab Hbc].
  remember (Z.to_nat (b - a)) as k eqn:Ek. revert a Hab Ek.
  induction k as [|k IH]; intros a Hab Ek.
  - assert (a = b) by lia. subst a. rewrite (zrange_nil b b) by lia. reflexivity.
  - rewrite (zrange_cons a b) by lia. rewrite (zrange_cons a c) by lia.
    cbn [app]. f_equal. apply IH; lia.
Qed.

Lemma zrange_shift d a b : map (fun j => j + d) (zrange a b) = zrange (a + d) (b + d).
Proof.
  unfold zrange. rewrite map_map.
  replace (b + d - (a + d)) with (b - a) by lia.
  apply map_ext. intros k. lia.
Qed.

Lemma length_zrange a b : Z.of_nat (length (zrange a b)) = Z.max 0 (b - a).
Proof. unfold zrange. rewrite length_map, length_seq. lia. Qed.

Lemma In_all_pairs N i j : In (i, j) (all_pairs N) <-> Spec.is_pair N i j.
Proof.
  unfold all_pairs, Spec.is_pair. rewrite in_flat_map. split.
  - intros (a & Ha & Hin). apply In_zrange in Ha.
    apply in_map_iff in Hin. destruct Hin as (b & [= <- <-] & Hb).
    apply In_zrange in Hb. lia.
  - intros (Hi & Hij & Hj). exists i. split; [apply In_zrange; lia|].
    apply in_map. apply In_zrange. lia.
Qed.

(** the offsets of the rows [i, i+1, ..., n-1], row after row, are the
    consecutive integers from the start of row [i] on *)
Lemma offsets_from_row N i :
  0 <= i <= N ->
  map (fun ij => Spec.offset N (fst ij) (snd ij))
      (flat_map (fun i => map (pair i) (zrange (i + 1) N)) (zrange i N))
  = zrange ((2 * N - 1 - i) * i / 2) (InferShape N).
Proof.
  intros Hi. remember (Z.to_nat (N - i)) as k eqn:Ek. revert i Hi Ek.
  pose proof (InferShape_double N) as HS.
  induction k as [|k IH]; intros i Hi Ek.
  - assert (i = N) by lia. subst i. rewrite (zrange_nil N N) by lia.
    pose proof (rowStart_double N N). cbn [flat_map map].
    rewrite zrange_nil; [reflexivity | nia].
  - rewrite (zrange_cons i N) by lia. cbn [flat_map]. rewrite map_app, map_map.
    cbn [fst snd]. rewrite IH by lia.
    pose proof (rowStart_double N i) as D1.
    pose proof (rowStart_double N (i + 1)) as D2.
    set (s := (2 * N - 1 - i) * i / 2) in *.
    set (s' := (2 * N - 1 - (i + 1)) * (i + 1) / 2) in *.
    assert (Es : s' = s + (N - 1 - i)) by nia.
    assert (Em : map (fun j => Spec.offset N i j) (zrange (i + 1) N) = zrange s s').
    { unfold Spec.offset. fold s.
      rewrite (map_ext _ (fun j => j + (s - i - 1))) by (intros; lia).
      rewrite zrange_shift. f_equal; lia. }
    rewrite Em. apply zrange_app.
    assert (0 <= (N - i - 1) * (N - i - 2)).
    { destruct (Z.eq_dec (N - i - 1) 0) as [-> | Hne]; [lia|].
      apply Z.mul_nonneg_nonneg; lia. }
    nia.
Qed.

(** The closed-form index of the kernel is the running counter of the
    reference: in the order of the loops of [cpu_pdist] the [k]-th pair has
    output index [k], for every [n] up to [2^31]. *)
Theorem outIdx_is_running_counter N :
  0 <= N <= 2 ^ 31 ->
  (forall pow x mm pp,
     cpu_pdist pow x N mm pp
     = mapM (fun ij => cpu_pair pow x mm pp (fst ij) (snd ij)) (all_pairs N)) /\
  map (fun ij => outIdx N (fst ij) (snd ij)) (all_pairs N) = zrange 0 (InferShape N) /\
  Z.of_nat (length (all_pairs N)) = InferShape N.
Proof.
  intros HN.
  assert (E : map (fun ij => outIdx N (fst ij) (snd ij)) (all_pairs N)
              = zrange 0 (InferShape N)).
  { rewrite (map_ext_in _ (fun ij => Spec.offset N (fst ij) (snd ij))).
    - unfold all_pairs. rewrite (offsets_from_row N 0) by lia.
      rewrite Z.mul_0_r. reflexivity.
    - intros [i j] Hin. apply In_all_pairs in Hin. cbn [fst snd].
      apply outIdx_offset; [lia | exact Hin]. }
  split; [intros; reflexivity|]. split; [exact E|].
  apply (f_equal (@length Z)) in E. rewrite length_map in E. rewrite E.
  rewrite length_zrange. pose proof (InferShape_double N). nia.
Qed.

Lemma outIdx_is_running_counter_witness :
  map (fun ij => outIdx 4 (fst ij) (snd ij)) (all_pairs 4) = zrange 0 (InferShape 4).
Proof. apply (outIdx_is_running_counter 4). lia. Defined.

(** ** The pairs of a launch *)

Lemma outer_loop_single td (fuel_in fuel : nat) i :
  usedCoreNum td = 1 -> n td < 2 ^ 32 -> 0 <= i <= n td ->
  (Z.to_nat (n td) < fuel_in)%nat -> (Z.to_nat (n td - i) < fuel)%nat ->
  outer_loop (fun _ => Ok tt) (fun _ i j => Ok (i, j)) td fuel_in fuel i
  = Ok (flat_map (fun i => map (pair i) (zrange (i + 1) (n td))) (zrange i (n td))).
Proof.
  intros Hc Hn. revert i. induction fuel as [|fuel IH]; intros i Hi Hfi Hf; [lia|].
  destruct (Z_lt_le_dec i (n td)) as [L | G].
  - rewrite outer_pairs_step by lia. rewrite Hc.
    rewrite (wrap32_small (i + 1)) by lia. rewrite IH by lia. cbn [bind].
    rewrite (zrange_cons i (n td)) by lia. reflexivity.
  - rewrite outer_pairs_stop by lia. rewrite zrange_nil by lia. reflexivity.
Qed.

(** Small-N collapse, planner and engine together: when there are fewer
    rows than cores the launch has the single core 0, and that core visits
    the pairs in the order of the loops of the reference [cpu_pdist]. *)
Theorem collapsed_launch_order ctx total :
  platformInfo ctx = Some total ->
  is_u32 total -> 0 <= dim0 ctx < total ->
  exists td fuel,
    TilingFunc ctx = Some td /\
    cores (usedCoreNum (load_tiling td)) = [0] /\
    Process_pairs fuel (load_tiling td) 0 = Ok (all_pairs (dim0 ctx)) /\
    launch_pairs fuel (load_tiling td) = Ok [all_pairs (dim0 ctx)].
Proof.
  intros Hp Ht Hn. unfold TilingFunc. rewrite Hp.
  unfold is_u32 in Ht.
  eexists. exists (S (Z.to_nat (dim0 ctx))). split; [reflexivity|].
  unfold load_tiling. cbn [t_n t_m t_p t_tileLength t_usedCoreNum t_tilingKey].
  rewrite (wrap32_small total) by lia. rewrite (wrap32_small (dim0 ctx)) by lia.
  unfold usedCoreNum_of. destruct (Z.ltb_spec (dim0 ctx) total) as [_ | G]; [|lia].
  assert (P : Process_pairs (S (Z.to_nat (dim0 ctx)))
                (mkKernelTiling (dim0 ctx) (wrap32 (dim1 ctx))
                   match attr_p ctx with Some v => v | None => F.two end
                   (tileLength_of (wrap32 (dim1 ctx)) (typeSize_of (dtype ctx))) 1 1) 0
              = Ok (all_pairs (dim0 ctx))).
  { unfold Process_pairs, loop_nest. cbn [usedCoreNum].
    change (0 >=? 1) with false. cbv iota.
    rewrite outer_loop_single; cbn [n usedCoreNum]; try lia. reflexivity. }
  split; [reflexivity|]. split; [exact P|].
  unfold launch_pairs. cbn [usedCoreNum]. change (cores 1) with [0].
  cbn [mapM]. rewrite P. reflexivity.
Qed.

Lemma collapsed_launch_order_witness :
  exists td fuel,
    TilingFunc (mkContext None 4 2 (Some 8) DT_FLOAT) = Some td /\
    Process_pairs fuel (load_tiling td) 0 = Ok (all_pairs 4).
Proof.
  destruct (collapsed_launch_order (mkContext None 4 2 (Some 8) DT_FLOAT) 8)
    as (td & fuel & E & _ & P & _).
  - reflexivity.
  - unfold is_u32. lia.
  - cbn [dim0]. lia.
  - exists td, fuel. split; [exact E | exact P].
Defined.

(** what every core enumerates in a launch without wrap-around *)
Lemma launch_pairs_cover td :
  0 <= n td -> 1 <= usedCoreNum td -> n td + usedCoreNum td <= 2 ^ 32 ->
  exists per_core,
    launch_pairs (S (Z.to_nat (n td))) td = Ok per_core /\
    NoDup (concat per_core) /\
    forall i j, In (i, j) (concat per_core) <-> Spec.is_pair (n td) i j.
Proof.
  intros Hn Hc Hw.
  destruct (mapM_Forall2 (Process_pairs (S (Z.to_nat (n td))) td)
              (fun u l => NoDup l /\
                 forall x, In x l <->
                   (fst x mod usedCoreNum td = u /\ Spec.is_pair (n td) (fst x) (snd x)))
              (cores (usedCoreNum td))) as (ls & E & F).
  { intros u Hu. apply In_zrange in Hu.
    destruct (Process_pairs_owned td Hn Hc Hw (S (Z.to_nat (n td))) u) as (l & El & ND & M);
      try lia.
    exists l. split; [exact El|]. split; [exact ND|]. intros [a b]. apply M. }
  exists ls. split; [exact E|].
  destruct (concat_owned (fun x : Z * Z => fst x mod usedCoreNum td)
              (fun x => Spec.is_pair (n td) (fst x) (snd x))
              (cores (usedCoreNum td)) ls (NoDup_zrange _ _) F) as (ND & M).
  split; [exact ND|].
  intros i j. rewrite (M (i, j)). cbn [fst snd]. split; [tauto|].
  intros P. split; [|exact P]. apply In_zrange. apply Z.mod_pos_bound. lia.
Qed.

Lemma NoDup_all_pairs N : 0 <= N -> NoDup (all_pairs N).
Proof.
  intros HN. apply (NoDup_map_inv (fun ij => Spec.offset N (fst ij) (snd ij))).
  unfold all_pairs. rewrite (offsets_from_row N 0) by lia. apply NoDup_zrange.
Qed.

Lemma length_all_pairs N : 0 <= N -> Z.of_nat (length (all_pairs N)) = InferShape N.
Proof.
  intros HN.
  pose proof (offsets_from_row N 0 ltac:(lia)) as E.
  apply (f_equal (@length Z)) in E. rewrite length_map in E.
  fold (all_pairs N) in E. rewrite E, length_zrange, Z.mul_0_r.
  pose proof (InferShape_double N). change (0 / 2) with 0. nia.
Qed.

Lemma InferShape_int64_small N :
  0 <= N <= 2 ^ 31 -> InferShape_int64 N = InferShape N.
Proof.
  intros HN. unfold InferShape_int64, InferShape, wrap_int64.
  assert (E1 : (N - 1 + 2 ^ 63) mod 2 ^ 64 = N - 1 + 2 ^ 63)
    by (apply Z.mod_small; lia).
  rewrite E1. replace (N - 1 + 2 ^ 63 - 2 ^ 63) with (N - 1) by lia.
  assert (B : 0 <= N * (N - 1) < 2 ^ 62) by nia.
  assert (E2 : (N * (N - 1) + 2 ^ 63) mod 2 ^ 64 = N * (N - 1) + 2 ^ 63)
    by (apply Z.mod_small; lia).
  rewrite E2. replace (N * (N - 1) + 2 ^ 63 - 2 ^ 63) with (N * (N - 1)) by lia.
  apply Z.quot_div_nonneg; lia.
Qed.

(** With at most [2^31] rows and no wrap-around of the row counter, a launch
    calls [ComputeAndSave] as many times as the output has elements by
    [InferShape], and a launch that finishes on data fills the output
    exactly: its writes go to pairwise distinct indices, which are the
    indices [0 .. outputSize - 1]. *)
Theorem launch_fills_output td :
  0 <= n td <= 2 ^ 31 -> 1 <= usedCoreNum td -> n td + usedCoreNum td <= 2 ^ 32 ->
  exists fuel per_core,
    launch_pairs fuel td = Ok per_core /\
    Z.of_nat (length (concat per_core)) = InferShape_int64 (n td) /\
    forall xGm writes,
      launch fuel xGm td = Ok writes ->
      Z.of_nat (length (concat writes)) = InferShape_int64 (n td) /\
      NoDup (map fst (concat writes)) /\
      forall k, In k (map fst (concat writes)) <-> 0 <= k < InferShape_int64 (n td).
Proof.
  intros Hn Hc Hw.
  destruct (launch_pairs_cover td ltac:(lia) Hc Hw) as (ls & E & ND & M).
  rewrite (InferShape_int64_small (n td) Hn).
  exists (S (Z.to_nat (n td))), ls. split; [exact E|].
  assert (L : Z.of_nat (length (concat ls)) = InferShape (n td)).
  { rewrite <- (length_all_pairs (n td)) by lia. f_equal.
    apply Nat.le_antisymm; apply NoDup_incl_length;
      try exact ND; try (apply NoDup_all_pairs; lia);
      intros [i j] Hin.
    - apply In_all_pairs, M, Hin.
    - apply M, In_all_pairs, Hin. }
  split; [exact L|].
  intros xGm writes Ew. unfold launch in Ew.
  destruct (mapM_related _ (Process_pairs (S (Z.to_nat (n td))) td)
              (fun ws ps => map fst ws
                            = map (fun ij => outIdx (n td) (fst ij) (snd ij)) ps)
              _ (fun u ws => Process_writes _ xGm td u ws) _ Ew) as (cs & Ecs & Rcs).
  unfold launch_pairs in E. rewrite E in Ecs. injection Ecs as <-.
  assert (Em : map fst (concat writes)
               = map (fun ij => outIdx (n td) (fst ij) (snd ij)) (concat ls)).
  { clear -Rcs. induction Rcs as [|ws ps wss pss Hh _ IH]; [reflexivity|].
    cbn [concat]. rewrite !map_app, Hh, IH. reflexivity. }
  split; [|split].
  - rewrite <- L. f_equal.
    apply (f_equal (@length Z)) in Em. rewrite !length_map in Em. exact Em.
  - rewrite Em. apply NoDup_map_on; [exact ND|].
    intros [i j] [i' j'] H1 H2. cbn [fst snd]. intros Eo.
    apply M in H1. apply M in H2.
    rewrite (outIdx_offset _ _ _ (proj2 Hn) H1), (outIdx_offset _ _ _ (proj2 Hn) H2) in Eo.
    destruct (offset_inj _ _ _ _ _ H1 H2 Eo). now subst.
  - intros k. rewrite Em, in_map_iff. split.
    + intros ([i j] & <- & Hin). cbn [fst snd]. apply M in Hin.
      rewrite (outIdx_offset _ _ _ (proj2 Hn) Hin). now apply offset_range.
    + intros Hk.
      destruct (Z.eq_dec (n td) 0) as [E0 | Hne].
      { rewrite E0 in Hk. change (InferShape 0) with 0 in Hk. lia. }
      destruct (offset_surj (n td) k ltac:(lia) Hk) as (i & j & P & Eo).
      exists (i, j). cbn [fst snd]. split; [|apply M; exact P].
      rewrite (outIdx_offset _ _ _ (proj2 Hn) P). exact Eo.
Qed.

Lemma launch_fills_output_witness :
  exists fuel per_core,
    launch_pairs fuel (mkKernelTiling 7 8 F.two 8 3 1) = Ok per_core /\
    Z.of_nat (length (concat per_core)) = 21.
Proof.
  destruct (launch_fills_output (mkKernelTiling 7 8 F.two 8 3 1))
    as (fuel & ls & E & L & _).
  - cbn [n]. lia.
  - cbn [usedCoreNum]. lia.
  - cbn [n usedCoreNum]. lia.
  - exists fuel, ls. split; [exact E | exact L].
Defined.

(** ** Termination of the loop nest *)

Section LoopOutcome.

Context {Row Out : Type}.
Variable fetch : Z -> result Row.
Variable body : Row -> Z -> Z -> result Out.
Variable td : KernelTilingData.

Hypothesis fetch_returns : forall i, fetch i <> OutOfFuel.
Hypothesis body_returns : forall rowI i j, body rowI i j <> OutOfFuel.

Lemma inner_loop_returns (fuel : nat) rowI i j :
  n td < 2 ^ 32 -> 0 <= j -> (Z.to_nat (n td - j) < fuel)%nat ->
  inner_loop body td fuel rowI i j <> OutOfFuel.
Proof.
  intros Hn. revert j. induction fuel as [|fuel IH]; intros j Hj Hf; [lia|].
  cbn [inner_loop]. destruct (Z.ltb_spec j (n td)) as [L | G]; [|discriminate].
  pose proof (body_returns rowI i j) as Hb.
  destruct (body rowI i j) as [w| |]; cbn [bind]; try discriminate; try contradiction.
  specialize (IH (wrap32 (j + 1))). rewrite (wrap32_small (j + 1)) in * by lia.
  specialize (IH ltac:(lia) ltac:(lia)).
  destruct (inner_loop body td fuel rowI i (j + 1)) as [ws| |]; cbn [bind];
    try discriminate; try contradiction.
Qed.

Lemma outer_loop_returns (fuel_in fuel : nat) i :
  1 <= usedCoreNum td -> n td + usedCoreNum td <= 2 ^ 32 ->
  0 <= i -> (Z.to_nat (n td) < fuel_in)%nat -> (Z.to_nat (n td - i) < fuel)%nat ->
  outer_loop fetch body td fuel_in fuel i <> OutOfFuel.
Proof.
  intros Hc Hw. revert i. induction fuel as [|fuel IH]; intros i Hi Hfi Hf; [lia|].
  cbn [outer_loop]. destruct (Z.ltb_spec i (n td)) as [L | G]; [|discriminate].
  pose proof (fetch_returns i) as Hb.
  destruct (fetch i) as [rowI| |]; cbn [bind]; try discriminate; try contradiction.
  pose proof (inner_loop_returns fuel_in rowI i (wrap32 (i + 1))) as Hin.
  rewrite (wrap32_small (i + 1)) in * by lia.
  specialize (Hin ltac:(lia) ltac:(lia) ltac:(lia)).
  destruct (inner_loop body td fuel_in rowI i (i + 1)) as [ws| |]; cbn [bind];
    try discriminate; try contradiction.
  specialize (IH (wrap32 (i + usedCoreNum td))).
  rewrite (wrap32_small (i + usedCoreNum td)) in * by lia.
  specialize (IH ltac:(lia) Hfi ltac:(lia)).
  destruct (outer_loop fetch body td fuel_in fuel (i + usedCoreNum td)) as [rest| |];
    cbn [bind]; try discriminate; try contradiction.
Qed.

(** an outcome other than [OutOfFuel] does not depend on the fuel *)
Lemma inner_loop_stable (fuel fuel' : nat) rowI i j r :
  (fuel <= fuel')%nat ->
  inner_loop body td fuel rowI i j = r -> r <> OutOfFuel ->
  inner_loop body td fuel' rowI i j = r.
Proof.
  revert fuel' j r. induction fuel as [|fuel IH]; intros fuel' j r Hle E Hr.
  - cbn in E. congruence.
  - destruct fuel' as [|fuel']; [lia|]. cbn [inner_loop] in *.
    destruct (j <? n td); [|exact E].
    destruct (body rowI i j) as [w| |]; cbn [bind] in *; try exact E.
    destruct (inner_loop body td fuel rowI i (wrap32 (j + 1))) as [ws| |] eqn:E1;
      cbn [bind] in E.
    + rewrite (IH fuel' _ (Ok ws)); [exact E | lia | exact E1 | discriminate].
    + rewrite (IH fuel' _ OutOfBounds); [exact E | lia | exact E1 | discriminate].
    + congruence.
Qed.

Lemma outer_loop_stable (fuel_in fuel_in' fuel fuel' : nat) i r :
  (fuel_in <= fuel_in')%nat -> (fuel <= fuel')%nat ->
  outer_loop fetch body td fuel_in fuel i = r -> r <> OutOfFuel ->
  outer_loop fetch body td fuel_in' fuel' i = r.
Proof.
  intros Hin. revert fuel' i r. induction fuel as [|fuel IH]; intros fuel' i r Hle E Hr.
  - cbn in E. congruence.
  - destruct fuel' as [|fuel']; [lia|]. cbn [outer_loop] in *.
    destruct (i <? n td); [|exact E].
    destruct (fetch i) as [rowI| |]; cbn [bind] in *; try exact E.
    destruct (inner_loop body td fuel_in rowI i (wrap32 (i + 1))) as [ws| |] eqn:E1;
      cbn [bind] in E.
    + rewrite (inner_loop_stable fuel_in fuel_in' rowI i _ (Ok ws) Hin E1)
        by discriminate. cbn [bind].
      destruct (outer_loop fetch body td fuel_in fuel (wrap32 (i + usedCoreNum td)))
        as [rest| |] eqn:E2; cbn [bind] in E.
      * rewrite (IH fuel' _ (Ok rest)); [exact E | lia | exact E2 | discriminate].
      * rewrite (IH fuel' _ OutOfBounds); [exact E | lia | exact E2 | discriminate].
      * congruence.
    + rewrite (inner_loop_stable fuel_in fuel_in' rowI i _ OutOfBounds Hin E1)
        by discriminate. exact E.
    + congruence.
Qed.

(** when the row counter cycles through rows below [n] for ever, the loop
    nest never returns a result *)
Lemma outer_loop_cycles (fuel_in fuel : nat) u i ws :
  1 <= usedCoreNum td -> (2 ^ 32) mod usedCoreNum td = 0 ->
  0 <= u < usedCoreNum td -> 2 ^ 32 - usedCoreNum td + u < n td ->
  0 <= i < 2 ^ 32 -> i mod usedCoreNum td = u ->
  outer_loop fetch body td fuel_in fuel i <> Ok ws.
Proof.
  intros Hc Hd Hu Hn. revert i ws.
  induction fuel as [|fuel IH]; intros i ws Hi Hm; [discriminate|].
  cbn [outer_loop].
  assert (L : i < n td).
  { pose proof (Z.div_mod i (usedCoreNum td) ltac:(lia)) as D.
    pose proof (Z.div_mod (2 ^ 32) (usedCoreNum td) ltac:(lia)) as D'.
    rewrite Hd in D'. rewrite Hm in D.
    assert (i / usedCoreNum td < 2 ^ 32 / usedCoreNum td) by nia. nia. }
  destruct (Z.ltb_spec i (n td)) as [_ | G]; [|lia].
  destruct (fetch i) as [rowI| |]; cbn [bind]; try discriminate.
  destruct (inner_loop body td fuel_in rowI i (wrap32 (i + 1))) as [ws1| |];
    cbn [bind]; try discriminate.
  assert (M : wrap32 (i + usedCoreNum td) mod usedCoreNum td = u).
  { unfold wrap32.
    rewrite Z.mod_mod_divide by (apply Z.mod_divide; [lia | exact Hd]).
    rewrite <- Hm. replace (i + usedCoreNum td) with (i + 1 * usedCoreNum td) by lia.
    apply Z.mod_add. lia. }
  pose proof (wrap32_range (i + usedCoreNum td)) as Rg.
  destruct (outer_loop fetch body td fuel_in fuel (wrap32 (i + usedCoreNum td)))
    as [rest| |] eqn:E; cbn [bind]; try discriminate.
  exfalso. exact (IH _ rest Rg M E).
Qed.

End LoopOutcome.

Lemma CopyRow_returns x td r : CopyRow x td r <> OutOfFuel.
Proof.
  unfold CopyRow, Vec.DataCopy.
  destruct (_ <=? _); discriminate.
Qed.

Lemma ComputeAndSave_returns x td rowI i j : ComputeAndSave x td rowI i j <> OutOfFuel.
Proof.
  unfold ComputeAndSave. pose proof (CopyRow_returns x td j).
  destruct (CopyRow x td j); cbn [bind]; try discriminate; contradiction.
Qed.

(** Without wrap-around of the row counter [Process] terminates on every
    core and every input: with any fuel above [n] it returns the same
    outcome, a list of writes or an out-of-bounds read, and never runs out
    of fuel. *)
Theorem Process_terminates x td u :
  0 <= n td -> 1 <= usedCoreNum td -> n td + usedCoreNum td <= 2 ^ 32 ->
  0 <= u ->
  exists r,
    r <> OutOfFuel /\
    forall fuel, (Z.to_nat (n td) < fuel)%nat -> Process fuel x td u = r.
Proof.
  intros Hn Hc Hw Hu.
  exists (Process (S (Z.to_nat (n td))) x td u).
  assert (T : Process (S (Z.to_nat (n td))) x td u <> OutOfFuel).
  { unfold Process, loop_nest. destruct (u >=? usedCoreNum td); [discriminate|].
    apply outer_loop_returns; try lia.
    - apply CopyRow_returns.
    - apply ComputeAndSave_returns. }
  split; [exact T|].
  intros fuel Hf. unfold Process, loop_nest in *.
  destruct (u >=? usedCoreNum td); [reflexivity|].
  apply (outer_loop_stable _ _ _ (S (Z.to_nat (n td))) fuel (S (Z.to_nat (n td))) fuel);
    try lia; [reflexivity | exact T].
Qed.

Lemma Process_terminates_witness :
  exists r,
    r <> OutOfFuel /\
    Process 8 (map Fin [0; 0; 3; 4; 0; 0; 6; 8]%R) (mkKernelTiling 4 2 F.two 8 1 1) 0 = r.
Proof.
  destruct (Process_terminates (map Fin [0; 0; 3; 4; 0; 0; 6; 8]%R)
              (mkKernelTiling 4 2 F.two 8 1 1) 0) as (r & Hr & E).
  - cbn [n]. lia.
  - cbn [usedCoreNum]. lia.
  - cbn [n usedCoreNum]. lia.
  - lia.
  - exists r. split; [exact Hr|]. apply E. cbn [n]. lia.
Defined.

Lemma pairs_loop_in_bounds td (fuel_in fuel : nat) i :
  outer_loop (fun _ => Ok tt) (fun _ i j => Ok (i, j)) td fuel_in fuel i <> OutOfBounds.
Proof.
  assert (I : forall f i j,
            inner_loop (fun _ i j => Ok (i, j)) td f tt i j <> OutOfBounds).
  { induction f as [|f IH]; intros a b; cbn [inner_loop]; [discriminate|].
    destruct (b <? n td); [|discriminate]. cbn [bind].
    specialize (IH a (wrap32 (b + 1))).
    destruct (inner_loop _ td f tt a (wrap32 (b + 1))); cbn [bind];
      try discriminate; contradiction. }
  revert i. induction fuel as [|fuel IH]; intros i; cbn [outer_loop]; [discriminate|].
  destruct (i <? n td); [|discriminate]. cbn [bind].
  specialize (I fuel_in i (wrap32 (i + 1))).
  destruct (inner_loop _ td fuel_in tt i (wrap32 (i + 1))); cbn [bind];
    try discriminate; try contradiction.
  specialize (IH (wrap32 (i + usedCoreNum td))).
  destruct (outer_loop _ _ td fuel_in fuel (wrap32 (i + usedCoreNum td))); cbn [bind];
    try discriminate; contradiction.
Qed.

(** When the number of cores divides [2^32] and [n] exceeds
    [2^32 - usedCoreNum + u], the 32-bit row counter of core [u] wraps around
    to a row it owns before it ever reaches [n]: the loop of [Process] never
    ends, whatever the fuel and the input. *)
Theorem Process_diverges td u :
  1 <= usedCoreNum td -> (2 ^ 32) mod usedCoreNum td = 0 ->
  0 <= u < usedCoreNum td ->
  2 ^ 32 - usedCoreNum td + u < n td ->
  (forall fuel, Process_pairs fuel td u = OutOfFuel) /\
  (forall fuel x ws, Process fuel x td u <> Ok ws).
Proof.
  intros Hc Hd Hu Hn.
  assert (Hs : 0 <= u < 2 ^ 32).
  { pose proof (Z.div_mod (2 ^ 32) (usedCoreNum td) ltac:(lia)) as D.
    rewrite Hd in D.
    assert (1 <= 2 ^ 32 / usedCoreNum td) by nia. nia. }
  assert (Hm : u mod usedCoreNum td = u) by (apply Z.mod_small; lia).
  split.
  - intros fuel. unfold Process_pairs, loop_nest.
    destruct (Z.geb_spec u (usedCoreNum td)); [lia|].
    pose proof (pairs_loop_in_bounds td fuel fuel u) as B.
    destruct (outer_loop _ _ td fuel fuel u) as [ws| |] eqn:E;
      [|contradiction | reflexivity].
    exfalso. revert E. apply (outer_loop_cycles _ _ td fuel fuel u u ws); assumption.
  - intros fuel x ws. unfold Process, loop_nest.
    destruct (Z.geb_spec u (usedCoreNum td)); [lia|].
    apply (outer_loop_cycles _ _ td fuel fuel u u ws); assumption.
Qed.

Lemma Process_diverges_witness :
  Process_pairs 1000 (mkKernelTiling (2 ^ 32 - 1) 8 F.two 8 2 1) 0 = OutOfFuel.
Proof.
  apply (Process_diverges (mkKernelTiling (2 ^ 32 - 1) 8 F.two 8 2 1) 0).
  - cbn [usedCoreNum]. lia.
  - reflexivity.
  - cbn [usedCoreNum]. lia.
  - cbn [n usedCoreNum]. lia.
Defined.

(** ** The values written *)

Local Open Scope R_scope.

Lemma abs_sub_sym a b : F.abs (F.sub a b) = F.abs (F.sub b a).
Proof.
  destruct a as [x | | |], b as [y | | |]; try reflexivity.
  cbn [F.sub F.neg F.add F.abs]. f_equal.
  change (Rabs (x - y) = Rabs (y - x)). apply Rabs_minus_sym.
Qed.

Lemma zip_abs_sub_sym a b :
  map F.abs (Vec.zipWith F.sub a b) = map F.abs (Vec.zipWith F.sub b a).
Proof.
  revert b. induction a as [|x a IH]; intros [|y b]; try reflexivity.
  cbn [Vec.zipWith map]. rewrite abs_sub_sym, IH. reflexivity.
Qed.

(** The value the engine computes for two staged rows does not depend on
    their order, whatever [p] and whatever the elements (infinities and
    NaN included). *)
Theorem pair_value_symmetric td rowI rowJ :
  pair_value td rowI rowJ = pair_value td rowJ rowI.
Proof.
  rewrite !pair_value_branches. cbv zeta.
  assert (E : staged_diffs td rowI rowJ = staged_diffs td rowJ rowI)
    by apply zip_abs_sub_sym.
  rewrite E. reflexivity.
Qed.

Lemma diffs_same a : Spec.diffs a a = map (fun _ => 0) a.
Proof.
  induction a as [|x a IH]; [reflexivity|]. cbn [Spec.diffs map].
  rewrite IH. f_equal. unfold Rminus. rewrite Rplus_opp_r. apply Rabs_R0.
Qed.

Lemma Rsum_zeros (a : list R) : Spec.Rsum (map (fun _ => 0) a) = 0.
Proof.
  unfold Spec.Rsum. induction a as [|x a IH]; [reflexivity|].
  cbn [map fold_right]. rewrite IH. lra.
Qed.

(** Two equal staged rows of finite values are at distance 0 for [p = 1]
    and for [p = 2]: every difference is 0, and so are their sum and the
    square root of the sum of their squares. *)
Theorem pair_value_same_row td row a :
  Vec.take (tileLength td) row = map Fin a ->
  (p td = F.one -> pair_value td row row = Fin 0) /\
  (p td = F.two -> pair_value td row row = Fin 0).
Proof.
  intros Ea. split.
  - intros Ep. rewrite (pair_value_p1 td row row a a Ep Ea Ea).
    unfold Spec.manhattan. rewrite diffs_same, Rsum_zeros. reflexivity.
  - intros Ep. rewrite (pair_value_p2 td row row a a Ep Ea Ea).
    unfold Spec.euclidean. rewrite diffs_same, map_map.
    rewrite (map_ext _ (fun _ => 0)) by (intros; lra).
    rewrite Rsum_zeros, sqrt_0. reflexivity.
Qed.

Lemma pair_value_same_row_witness :
  pair_value (mkKernelTiling 2 8 F.two 8 1 1)
    (map Fin [5; 1; 2; 0; 0; 7; 0; 1]) (map Fin [5; 1; 2; 0; 0; 7; 0; 1]) = Fin 0.
Proof.
  apply (pair_value_same_row (mkKernelTiling 2 8 F.two 8 1 1)
           (map Fin [5; 1; 2; 0; 0; 7; 0; 1]) [5; 1; 2; 0; 0; 7; 0; 1]).
  - reflexivity.
  - reflexivity.
Defined.

(** ** A launch on rows without padding *)

Local Close Scope R_scope.

(** with [tileLength = m] a row fetch inside the matrix is the row *)
Lemma CopyRow_row x td r :
  tileLength td = m td -> 0 <= m td ->
  0 <= r < n td -> n td * m td < 2 ^ 32 ->
  Z.of_nat (length x) = n td * m td ->
  CopyRow x td r = Ok (row_of x (m td) r).
Proof.
  intros Ht Hm Hr Hb Hx.
  assert (W : wrap32 (r * m td) = r * m td) by (apply wrap32_small; nia).
  rewrite CopyRow_in by (rewrite W, Ht, Hx; nia).
  rewrite W, Ht. reflexivity.
Qed.

Section FetchedRows.

Variable x : list fp.
Variable td : KernelTilingData.
Variable rowf : Z -> list fp.

Hypothesis fetch_row : forall r, 0 <= r < n td -> CopyRow x td r = Ok (rowf r).

Let write (ij : Z * Z) : Z * fp :=
  (outIdx (n td) (fst ij) (snd ij), pair_value td (rowf (fst ij)) (rowf (snd ij))).

Lemma inner_loop_values (fuel : nat) i j ps :
  0 <= j ->
  inner_loop (fun _ i j => Ok (i, j)) td fuel tt i j = Ok ps ->
  inner_loop (ComputeAndSave x td) td fuel (rowf i) i j = Ok (map write ps).
Proof.
  revert j ps. induction fuel as [|fuel IH]; intros j ps Hj E; [discriminate|].
  cbn [inner_loop] in *. destruct (Z.ltb_spec j (n td)) as [L | G].
  - cbn [bind] in E.
    destruct (inner_loop (fun _ i j => Ok (i, j)) td fuel tt i (wrap32 (j + 1)))
      as [ps'| |] eqn:E1; cbn [bind] in E; try discriminate.
    injection E as <-.
    unfold ComputeAndSave at 1. rewrite fetch_row by lia. cbn [bind].
    rewrite (IH _ ps') by (try apply wrap32_range; exact E1).
    reflexivity.
  - injection E as <-. reflexivity.
Qed.

Lemma outer_loop_values (fuel_in fuel : nat) i ps :
  0 <= i ->
  outer_loop (fun _ => Ok tt) (fun _ i j => Ok (i, j)) td fuel_in fuel i = Ok ps ->
  outer_loop (CopyRow x td) (ComputeAndSave x td) td fuel_in fuel i = Ok (map write ps).
Proof.
  revert i ps. induction fuel as [|fuel IH]; intros i ps Hi E; [discriminate|].
  cbn [outer_loop] in *. destruct (Z.ltb_spec i (n td)) as [L | G].
  - cbn [bind] in E.
    destruct (inner_loop (fun _ i j => Ok (i, j)) td fuel_in tt i (wrap32 (i + 1)))
      as [ps1| |] eqn:E1; cbn [bind] in E; try discriminate.
    destruct (outer_loop (fun _ => Ok tt) (fun _ i j => Ok (i, j)) td fuel_in fuel
                (wrap32 (i + usedCoreNum td))) as [ps2| |] eqn:E2;
      cbn [bind] in E; try discriminate.
    injection E as <-.
    rewrite fetch_row by lia. cbn [bind].
    rewrite (inner_loop_values fuel_in i _ ps1) by (try apply wrap32_range; exact E1).
    cbn [bind].
    rewrite (IH _ ps2) by (try apply wrap32_range; exact E2).
    cbn [bind]. rewrite map_app. reflexivity.
  - injection E as <-. reflexivity.
Qed.

Lemma Process_values (fuel : nat) u ps :
  0 <= u ->
  Process_pairs fuel td u = Ok ps ->
  Process fuel x td u = Ok (map write ps).
Proof.
  intros Hu. unfold Process, Process_pairs, loop_nest.
  destruct (u >=? usedCoreNum td).
  - intros [= <-]. reflexivity.
  - now apply outer_loop_values.
Qed.

Lemma launch_values (fuel : nat) per_core :
  launch_pairs fuel td = Ok per_core ->
  launch fuel x td = Ok (map (map write) per_core).
Proof.
  unfold launch, launch_pairs.
  assert (Hc : forall u, In u (cores (usedCoreNum td)) -> 0 <= u)
    by (intros u Hu; apply In_zrange in Hu; lia).
  revert per_core Hc. induction (cores (usedCoreNum td)) as [|u us IH];
    intros per_core Hc E; cbn [mapM] in *.
  - injection E as <-. reflexivity.
  - destruct (Process_pairs fuel td u) as [ps| |] eqn:Eu; cbn [bind] in E;
      try discriminate.
    destruct (mapM (Process_pairs fuel td) us) as [pss| |]; cbn [bind] in E;
      try discriminate.
    injection E as <-.
    rewrite (Process_values fuel u ps (Hc u (or_introl eq_refl)) Eu). cbn [bind].
    rewrite (IH pss) by (intros; try apply Hc; try (now right); reflexivity).
    reflexivity.
Qed.

End FetchedRows.

Lemma aligned_launch_kernel td x :
  tileLength td = m td -> 0 <= m td -> 0 <= n td -> n td * m td < 2 ^ 32 ->
  1 <= usedCoreNum td -> n td + usedCoreNum td <= 2 ^ 32 ->
  Z.of_nat (length x) = n td * m td ->
  exists writes,
    launch (S (Z.to_nat (n td))) x td = Ok writes /\
    forall idx v,
      In (idx, v) (concat writes) <->
      exists i j, Spec.is_pair (n td) i j /\ idx = outIdx (n td) i j /\
                  v = pair_value td (row_of x (m td) i) (row_of x (m td) j).
Proof.
  intros Ht Hm Hn Hb Hc Hw Hx.
  destruct (launch_pairs_cover td Hn Hc Hw) as (ls & E & _ & M).
  eexists. split.
  - apply (launch_values x td (fun r => row_of x (m td) r)).
    + intros r Hr. apply CopyRow_row; assumption.
    + exact E.
  - intros idx v. rewrite <- concat_map, in_map_iff. split.
    + intros ([i j] & [= <- <-] & Hin). apply M in Hin.
      exists i, j. cbn [fst snd]. repeat split; apply Hin.
    + intros (i & j & P & -> & ->). exists (i, j). split; [reflexivity|].
      apply M. exact P.
Qed.

(** Planner and engine together on 32-bit rows without padding: when the
    row byte size is a multiple of 32 and the input has exactly [n * m]
    elements, every row fetch of the launch returns exactly that row of the
    input, the launch finishes without leaving the input, and its writes
    are, for each pair [(i, j)] with [0 <= i < j < n] and for nothing else,
    the value [ComputeAndSave] computes from rows [i] and [j] of the input,
    at the index of the pair. *)
Theorem aligned_launch_rows ctx total x :
  platformInfo ctx = Some total -> dtype ctx = DT_FLOAT ->
  1 <= total < 2 ^ 32 ->
  0 <= dim0 ctx -> 1 <= dim1 ctx ->
  (dim1 ctx * 4) mod 32 = 0 -> dim1 ctx * 4 <= 2 ^ 32 - 32 ->
  dim0 ctx * dim1 ctx < 2 ^ 32 -> dim0 ctx + total <= 2 ^ 32 ->
  Z.of_nat (length x) = dim0 ctx * dim1 ctx ->
  exists td fuel writes,
    TilingFunc ctx = Some td /\
    (forall r, 0 <= r < dim0 ctx ->
       CopyRow x (load_tiling td) r = Ok (row_of x (dim1 ctx) r)) /\
    launch fuel x (load_tiling td) = Ok writes /\
    (forall idx v,
       In (idx, v) (concat writes) <->
       exists i j, Spec.is_pair (dim0 ctx) i j /\ idx = outIdx (dim0 ctx) i j /\
                   v = pair_value (load_tiling td)
                         (row_of x (dim1 ctx) i) (row_of x (dim1 ctx) j)).
Proof.
  intros Hp Hd Ht Hn Hm Hr Hb4 Hb Hw Hx.
  assert (Em : wrap32 (dim1 ctx) = dim1 ctx) by (apply wrap32_small; lia).
  assert (En : wrap32 (dim0 ctx) = dim0 ctx) by (apply wrap32_small; nia).
  assert (Et : tileLength_of (dim1 ctx) 4 = dim1 ctx).
  { rewrite tileLength_of_spec by lia.
    apply (alignedRowLength_tight (dim1 ctx) 4); [lia | lia | exact Hr]. }
  set (td := mkTiling (dim0 ctx) (dim1 ctx)
               match attr_p ctx with Some v => v | None => F.two end
               (dim1 ctx) (usedCoreNum_of (dim0 ctx) total) 1).
  assert (E : TilingFunc ctx = Some td).
  { unfold TilingFunc. rewrite Hp, Hd. cbn [typeSize_of].
    rewrite Em, En, Et, (wrap32_small total) by lia. reflexivity. }
  assert (K1 : tileLength (load_tiling td) = m (load_tiling td)) by reflexivity.
  assert (K2 : m (load_tiling td) = dim1 ctx) by reflexivity.
  assert (K3 : n (load_tiling td) = dim0 ctx) by reflexivity.
  assert (K4 : usedCoreNum (load_tiling td) = usedCoreNum_of (dim0 ctx) total)
    by reflexivity.
  assert (Hc : 1 <= usedCoreNum (load_tiling td) <= total).
  { rewrite K4. unfold usedCoreNum_of. destruct (dim0 ctx <? total); lia. }
  destruct (aligned_launch_kernel (load_tiling td) x K1) as (writes & L & M);
    try (rewrite ?K2, ?K3; lia).
  assert (Rw : forall r, 0 <= r < dim0 ctx ->
            CopyRow x (load_tiling td) r = Ok (row_of x (dim1 ctx) r)).
  { intros r Hr'. rewrite <- K2. apply CopyRow_row; rewrite ?K2, ?K3; lia. }
  rewrite K2, K3 in *.
  exists td, (S (Z.to_nat (dim0 ctx))), writes.
  split; [exact E|]. split; [exact Rw|]. split; [exact L | exact M].
Qed.

Lemma aligned_launch_rows_witness :
  exists td fuel writes,
    TilingFunc (mkContext (Some F.one) 2 8 (Some 8) DT_FLOAT) = Some td /\
    launch fuel (map Fin [0; 0; 0; 0; 0; 0; 0; 0; 3; 4; 0; 0; 0; 0; 0; 0]%R)
      (load_tiling td) = Ok writes.
Proof.
  destruct (aligned_launch_rows (mkContext (Some F.one) 2 8 (Some 8) DT_FLOAT) 8
              (map Fin [0; 0; 0; 0; 0; 0; 0; 0; 3; 4; 0; 0; 0; 0; 0; 0]%R))
    as (td & fuel & writes & E & _ & L & _);
    [ reflexivity | reflexivity | lia | cbn; lia | cbn; lia | reflexivity
    | cbn; lia | cbn; lia | cbn; lia | reflexivity | ].
  exists td, fuel, writes. split; [exact E | exact L].
Defined.

(** ** The CPU reference *)

Lemma read_in_bounds (x : list fp) idx :
  0 <= idx < Z.of_nat (length x) -> exists v, read x idx = Ok v.
Proof.
  intros H. unfold read. destruct (Z.ltb_spec idx 0); [lia|].
  destruct (nth_error x (Z.to_nat idx)) as [v|] eqn:E; [now exists v|].
  apply nth_error_None in E. lia.
Qed.

Lemma read_Fin (xr : list R) idx :
  0 <= idx < Z.of_nat (length xr) ->
  read (map Fin xr) idx = Ok (Fin (nth (Z.to_nat idx) xr 0%R)).
Proof.
  intros H. unfold read. destruct (Z.ltb_spec idx 0); [lia|].
  rewrite nth_error_map, (nth_error_nth' xr 0%R) by lia. reflexivity.
Qed.

Lemma cpu_diff_in_bounds x mm i j k :
  0 <= i * mm + k < Z.of_nat (length x) ->
  0 <= j * mm + k < Z.of_nat (length x) ->
  exists d, cpu_diff x mm i j k = Ok d.
Proof.
  intros Hi Hj. unfold cpu_diff.
  destruct (read_in_bounds x _ Hi) as (a & ->).
  destruct (read_in_bounds x _ Hj) as (b & ->).
  cbn [bind]. eexists. reflexivity.
Qed.

Lemma cpu_max_in_bounds x mm i j ks acc :
  (forall k, In k ks -> 0 <= i * mm + k < Z.of_nat (length x) /\
                        0 <= j * mm + k < Z.of_nat (length x)) ->
  exists r, cpu_max x mm i j ks acc = Ok r.
Proof.
  revert acc. induction ks as [|k ks IH]; intros acc H; cbn [cpu_max].
  - eexists. reflexivity.
  - destruct (H k (or_introl eq_refl)) as [Hi Hj].
    destruct (cpu_diff_in_bounds x mm i j k Hi Hj) as (d & ->). cbn [bind].
    apply IH. intros k' Hk'. apply H. now right.
Qed.

Lemma cpu_sum_in_bounds pow x mm i j ks pp sum :
  (forall k, In k ks -> 0 <= i * mm + k < Z.of_nat (length x) /\
                        0 <= j * mm + k < Z.of_nat (length x)) ->
  exists r, cpu_sum pow x mm i j ks pp sum = Ok r.
Proof.
  revert sum. induction ks as [|k ks IH]; intros sum H; cbn [cpu_sum].
  - eexists. reflexivity.
  - destruct (H k (or_introl eq_refl)) as [Hi Hj].
    destruct (cpu_diff_in_bounds x mm i j k Hi Hj) as (d & ->). cbn [bind].
    apply IH. intros k' Hk'. apply H. now right.
Qed.

Lemma mapM_length {A B} (f : A -> result B) (l : list A) bs :
  mapM f l = Ok bs -> length bs = length l.
Proof.
  revert bs. induction l as [|a l IH]; intros bs E; cbn [mapM] in E.
  - injection E as <-. reflexivity.
  - destruct (f a); cbn [bind] in E; try discriminate.
    destruct (mapM f l) as [bs'| |]; cbn [bind] in E; try discriminate.
    injection E as <-. cbn [length]. f_equal. now apply IH.
Qed.

(** On an input of [n * m] elements the reference reads inside the input
    only, for every exponent and every [pow]: it returns [n (n - 1) / 2]
    values, one for each pair, in the order of the output indices. *)
Theorem cpu_pdist_in_bounds pow x N mm pp :
  0 <= N -> 0 <= mm -> Z.of_nat (length x) = N * mm ->
  exists ys,
    cpu_pdist pow x N mm pp = Ok ys /\
    Z.of_nat (length ys) = InferShape N.
Proof.
  intros HN Hm Hx.
  destruct (mapM_Forall2 (fun ij => cpu_pair pow x mm pp (fst ij) (snd ij))
              (fun _ _ => True) (all_pairs N)) as (ys & E & _).
  { intros [i j] Hin. apply In_all_pairs in Hin. destruct Hin as (Hi & Hij & Hj).
    cbn [fst snd].
    assert (B : forall k, In k (zrange 0 mm) ->
                0 <= i * mm + k < Z.of_nat (length x) /\
                0 <= j * mm + k < Z.of_nat (length x)).
    { intros k Hk. apply In_zrange in Hk. rewrite Hx. nia. }
    unfold cpu_pair. destruct (F.isinf pp).
    - destruct (cpu_max_in_bounds x mm i j _ F.zero B) as (r & ->).
      exists r. split; [reflexivity | exact I].
    - destruct (cpu_sum_in_bounds pow x mm i j _ pp F.zero B) as (r & ->).
      cbn [bind]. eexists. split; [reflexivity | exact I]. }
  exists ys. split; [exact E|].
  rewrite (mapM_length _ _ _ E). apply length_all_pairs. exact HN.
Qed.

Lemma cpu_pdist_in_bounds_witness :
  exists ys,
    cpu_pdist (fun a _ => a) (map Fin [0; 0; 3; 4; 0; 0; 6; 8]%R) 4 2 F.two = Ok ys /\
    Z.of_nat (length ys) = 6.
Proof.
  destruct (cpu_pdist_in_bounds (fun a _ => a) (map Fin [0; 0; 3; 4; 0; 0; 6; 8]%R)
              4 2 F.two) as (ys & E & L); [lia | lia | reflexivity |].
  exists ys. split; [exact E | exact L].
Defined.

Local Open Scope R_scope.

Lemma nth_map_seq {A} (h : nat -> A) (len t : nat) d :
  (t < len)%nat -> nth t (map h (seq 0 len)) d = h t.
Proof.
  intros H. rewrite (nth_indep _ d (h 0%nat)) by (rewrite length_map, length_seq; lia).
  rewrite map_nth, seq_nth by lia. reflexivity.
Qed.

Lemma row_of_nth (xr : list R) mm i :
  (0 <= mm)%Z -> (0 <= i)%Z -> (i * mm + mm <= Z.of_nat (length xr))%Z ->
  row_of xr mm i = map (fun k => nth (Z.to_nat (i * mm + k)) xr 0) (zrange 0 mm).
Proof.
  intros Hm Hi Hb. unfold row_of, zrange. rewrite map_map, Z.sub_0_r.
  apply (nth_ext _ _ 0 0).
  - rewrite length_firstn, length_skipn, length_map, length_seq. nia.
  - intros t Ht. rewrite length_firstn, length_skipn in Ht.
    rewrite nth_firstn. destruct (Nat.ltb_spec t (Z.to_nat mm)); [|lia].
    rewrite nth_skipn, nth_map_seq by lia. f_equal. nia.
Qed.

Lemma diffs_map {A} (f g : A -> R) (l : list A) :
  Spec.diffs (map f l) (map g l) = map (fun k => Rabs (f k - g k)) l.
Proof. induction l as [|a l IH]; [reflexivity|]. cbn [map Spec.diffs]. now rewrite IH. Qed.

Lemma cpu_max_fold (xr : list R) mm i j ks acc :
  (forall k, In k ks -> (0 <= i * mm + k < Z.of_nat (length xr))%Z /\
                        (0 <= j * mm + k < Z.of_nat (length xr))%Z) ->
  cpu_max (map Fin xr) mm i j ks (Fin acc)
  = Ok (Fin (fold_left Rmax
               (map (fun k => Rabs (nth (Z.to_nat (i * mm + k)) xr 0
                                    - nth (Z.to_nat (j * mm + k)) xr 0)) ks) acc)).
Proof.
  revert acc. induction ks as [|k ks IH]; intros acc H; [reflexivity|].
  destruct (H k (or_introl eq_refl)) as [Hi Hj].
  rewrite (cpu_max_step _ _ _ _ _ _ _ _ _ (read_Fin xr _ Hi) (read_Fin xr _ Hj)).
  rewrite IH by (intros k' Hk'; apply H; now right). reflexivity.
Qed.

Lemma fold_right_Rmax_nonneg l : 0 <= fold_right Rmax 0 l.
Proof.
  induction l as [|d l IH]; simpl; [lra|].
  eapply Rle_trans; [exact IH | apply Rmax_r].
Qed.

Lemma fold_left_Rmax l acc :
  0 <= acc -> fold_left Rmax l acc = Rmax acc (fold_right Rmax 0 l).
Proof.
  revert acc. induction l as [|d l IH]; intros acc Ha; cbn [fold_left fold_right].
  - rewrite Rmax_left by lra. reflexivity.
  - rewrite IH by (eapply Rle_trans; [exact Ha | apply Rmax_l]).
    rewrite Rmax_assoc. reflexivity.
Qed.

(** the [double] [result] of the [is_inf] branch, before it is stored *)
Lemma cpu_result_chebyshev pow (xr : list R) N mm pp i j :
  F.isinf pp = true ->
  (0 <= mm)%Z -> (0 <= i < N)%Z -> (0 <= j < N)%Z ->
  Z.of_nat (length xr) = (N * mm)%Z ->
  cpu_pair pow (map Fin xr) mm pp i j
  = Ok (Fin (Spec.chebyshev (row_of xr mm i) (row_of xr mm j))).
Proof.
  intros Hinf Hm Hi Hj Hx. unfold cpu_pair. rewrite Hinf. unfold F.zero.
  rewrite cpu_max_fold by (intros k Hk; apply In_zrange in Hk; rewrite Hx; nia).
  rewrite fold_left_Rmax by lra.
  rewrite Rmax_right by apply fold_right_Rmax_nonneg.
  unfold Spec.chebyshev.
  rewrite (row_of_nth xr mm i), (row_of_nth xr mm j) by (try rewrite Hx; nia).
  rewrite diffs_map. reflexivity.
Qed.

(** For an infinite exponent ([+inf] as well as [-inf], [std::isinf] does
    not look at the sign) the reference stores, on finite data, the
    Chebyshev distance of rows [i] and [j] (the largest absolute difference
    of their [m] elements, 0 for [m = 0]) converted from [double] to the
    element type. *)
Theorem cpu_store_chebyshev narrow pow (xr : list R) N mm pp i j :
  F.isinf pp = true ->
  (0 <= mm)%Z -> (0 <= i < N)%Z -> (0 <= j < N)%Z ->
  Z.of_nat (length xr) = (N * mm)%Z ->
  cpu_store narrow pow (map Fin xr) mm pp i j
  = Ok (narrow (Fin (Spec.chebyshev (row_of xr mm i) (row_of xr mm j)))).
Proof.
  intros Hinf Hm Hi Hj Hx. unfold cpu_store.
  rewrite (cpu_result_chebyshev pow xr N mm pp i j Hinf Hm Hi Hj Hx).
  reflexivity.
Qed.

Lemma cpu_store_chebyshev_witness :
  cpu_store (fun v => v) (fun a _ => a) (map Fin [0; 0; 3; 4]) 2 NInf 0 1
  = Ok (Fin (Spec.chebyshev (row_of [0; 0; 3; 4] 2 0) (row_of [0; 0; 3; 4] 2 1))).
Proof.
  apply (cpu_store_chebyshev (fun v => v) (fun a _ => a) [0; 0; 3; 4] 2 2 NInf 0 1);
    [reflexivity | lia | lia | lia | reflexivity].
Defined.

(** ** The accuracy check of the harness *)

Lemma read_nth (x : list fp) idx d :
  (0 <= idx < Z.of_nat (length x))%Z -> read x idx = Ok (nth (Z.to_nat idx) x d).
Proof.
  intros H. unfold read. destruct (Z.ltb_spec idx 0); [lia|].
  rewrite (nth_error_nth' x d) by lia. reflexivity.
Qed.

(** the loop counts the indices that mismatch *)
Lemma count_errors_spec epsilon e a idx c :
  (forall i, In i idx -> (0 <= i < Z.of_nat (length e))%Z /\
                         (i < Z.of_nat (length a))%Z) ->
  exists c',
    count_errors epsilon e a idx c = Ok c' /\ (c <= c')%Z /\
    (c' = c <->
     forall i, In i idx ->
       mismatch epsilon (nth (Z.to_nat i) e NaN) (nth (Z.to_nat i) a NaN) = false).
Proof.
  revert c. induction idx as [|i idx IH]; intros c H; cbn [count_errors].
  - exists c. split; [reflexivity|]. split; [lia|]. split; [intros _ i []| reflexivity].
  - destruct (H i (or_introl eq_refl)) as [He Ha].
    rewrite (read_nth e i NaN), (read_nth a i NaN) by lia. cbn [bind].
    set (b := mismatch epsilon (nth (Z.to_nat i) e NaN) (nth (Z.to_nat i) a NaN)).
    destruct (IH (if b then (c + 1)%Z else c)) as (c' & E & Hle & Hiff).
    { intros k Hk. apply H. now right. }
    exists c'. split; [exact E|]. destruct b eqn:Eb.
    + split; [lia|]. split; [lia|].
      intros Hall. specialize (Hall i (or_introl eq_refl)). fold b in Hall. congruence.
    + split; [exact Hle|]. rewrite Hiff. split.
      * intros Hall k [<- | Hk]; [exact Eb | now apply Hall].
      * intros Hall k Hk. apply Hall. now right.
Qed.

Lemma tolerance_Fin sz pp :
  exists t, tolerance sz pp = Fin t /\ 0 < t /\
    t = (if (sz =? 2)%Z then / 10 ^ 2 else / 10 ^ 4) * (if F.gtb pp F.two then 5 else 1).
Proof.
  unfold tolerance. destruct (sz =? 2)%Z, (F.gtb pp F.two); cbn [F.mul];
    eexists; (split; [reflexivity|]); split; try reflexivity; try lra.
  all: try (rewrite Rmult_1_r; reflexivity).
Qed.

Lemma check_accuracy_passes sz e a len pp :
  (0 <= len <= Z.of_nat (length e))%Z -> (len <= Z.of_nat (length a))%Z ->
  exists b,
    check_accuracy sz e a len pp = Ok b /\
    (b = true <->
     forall i, (0 <= i < len)%Z ->
       mismatch (tolerance sz pp) (nth (Z.to_nat i) e NaN) (nth (Z.to_nat i) a NaN)
       = false).
Proof.
  intros He Ha. unfold check_accuracy.
  destruct (count_errors_spec (tolerance sz pp) e a (zrange 0 len) 0%Z)
    as (c & E & Hle & Hiff).
  { intros i Hi. apply In_zrange in Hi. lia. }
  rewrite E. cbn [bind]. eexists. split; [reflexivity|].
  destruct (Z.ltb_spec 0 c) as [L | G].
  - split; [discriminate|]. intros Hall. exfalso.
    assert (c = 0%Z); [|lia]. apply Hiff. intros i Hi. apply Hall.
    apply In_zrange in Hi. lia.
  - split; [|reflexivity]. intros _ i Hi.
    assert (Ec : c = 0%Z) by lia. apply Hiff; [exact Ec|]. apply In_zrange. lia.
Qed.

Lemma mismatch_NaN epsilon v : mismatch epsilon v NaN = false.
Proof.
  unfold mismatch. destruct v; cbn [F.sub F.neg F.add F.abs F.gtb]; reflexivity.
Qed.

(** The accuracy check is blind to NaN: [diff > epsilon] is false when
    [actual[i]] is a NaN, so an output whose first [len] elements are NaN is
    accepted, whatever the expected values, the element size and [p]. *)
Theorem check_accuracy_accepts_NaN sz e a len pp :
  (0 <= len <= Z.of_nat (length e))%Z -> (len <= Z.of_nat (length a))%Z ->
  (forall i, (0 <= i < len)%Z -> nth (Z.to_nat i) a NaN = NaN) ->
  check_accuracy sz e a len pp = Ok true.
Proof.
  intros He Ha Hn.
  destruct (check_accuracy_passes sz e a len pp He Ha) as (b & E & Hb).
  rewrite E. f_equal. apply Hb. intros i Hi. rewrite (Hn i Hi). apply mismatch_NaN.
Qed.

Lemma check_accuracy_accepts_NaN_witness :
  check_accuracy 4 (map Fin [5; 0; 10]) [NaN; NaN; NaN] 3 F.two = Ok true.
Proof.
  apply (check_accuracy_accepts_NaN 4 (map Fin [5; 0; 10]) [NaN; NaN; NaN] 3 F.two).
  - cbn. lia.
  - cbn. lia.
  - intros i Hi.
    assert (C : i = 0%Z \/ i = 1%Z \/ i = 2%Z) by lia.
    destruct C as [-> | [-> | ->]]; reflexivity.
Defined.

Lemma mismatch_finite t u v :
  0 < t ->
  mismatch (Fin t) (Fin u) (Fin v) = false <->
  Rabs (u - v) <= t \/ Rabs (u - v) <= t * (Rabs u + / 10 ^ 9).
Proof.
  intros Ht. unfold mismatch. cbn [F.sub F.neg F.add F.abs F.gtb].
  fold (u - v).
  assert (Hd : 0 < Rabs u + / 10 ^ 9).
  { pose proof (Rabs_pos u).
    assert (0 < / 10 ^ 9) by (apply Rinv_0_lt_compat; apply pow_lt; lra). lra. }
  cbn [F.div]. rewrite sgn_pos by exact Hd. cbn [F.gtb].
  assert (Q : t < Rabs (u - v) / (Rabs u + / 10 ^ 9)
              <-> t * (Rabs u + / 10 ^ 9) < Rabs (u - v)).
  { split; intros H.
    - apply (Rmult_lt_compat_r _ _ _ Hd) in H.
      unfold Rdiv in H. rewrite Rmult_assoc, Rinv_l, Rmult_1_r in H by lra. exact H.
    - apply (Rmult_lt_reg_r (Rabs u + / 10 ^ 9)); [exact Hd|].
      unfold Rdiv. rewrite Rmult_assoc, Rinv_l, Rmult_1_r by lra. exact H. }
  destruct (Rlt_dec t (Rabs (u - v))) as [L | G];
    destruct (Rlt_dec t (Rabs (u - v) / (Rabs u + / 10 ^ 9))) as [L' | G'];
    cbn [andb]; split; intros H; try discriminate; try reflexivity.
  - apply Q in L'. destruct H; lra.
  - right. apply Rnot_lt_le. intros C. apply G'. now apply Q.
  - left. lra.
  - left. lra.
Qed.

(** On finite values the check accepts exactly when every element is
    within the tolerance [t] in absolute error, or within [t] relative to
    [|expected| + 1e-9]; [t] is 1e-4 (1e-2 for 2-byte elements), five times
    that for [p > 2]. *)
Theorem check_accuracy_finite sz (er ar : list R) len pp :
  Z.of_nat (length er) = len -> Z.of_nat (length ar) = len ->
  exists t,
    tolerance sz pp = Fin t /\
    t = (if (sz =? 2)%Z then / 10 ^ 2 else / 10 ^ 4) * (if F.gtb pp F.two then 5 else 1) /\
    (check_accuracy sz (map Fin er) (map Fin ar) len pp = Ok true <->
     forall i, (i < length er)%nat ->
       Rabs (nth i er 0 - nth i ar 0) <= t \/
       Rabs (nth i er 0 - nth i ar 0) <= t * (Rabs (nth i er 0) + / 10 ^ 9)).
Proof.
  intros He Ha.
  destruct (tolerance_Fin sz pp) as (t & Et & Ht & Hv).
  exists t. split; [exact Et|]. split; [exact Hv|].
  destruct (check_accuracy_passes sz (map Fin er) (map Fin ar) len pp)
    as (b & E & Hb); try (rewrite length_map; lia).
  rewrite E, Et in *.
  assert (Hnth : forall (l : list R) k, (k < length l)%nat ->
            nth k (map Fin l) NaN = Fin (nth k l 0)).
  { intros l k Hk. rewrite (nth_indep _ NaN (Fin 0)) by (rewrite length_map; lia).
    apply map_nth. }
  split.
  - intros [= ->]. intros i Hi.
    assert (Hm : mismatch (Fin t) (nth (Z.to_nat (Z.of_nat i)) (map Fin er) NaN)
                   (nth (Z.to_nat (Z.of_nat i)) (map Fin ar) NaN) = false)
      by (apply Hb; [reflexivity | lia]).
    rewrite Nat2Z.id, !Hnth in Hm by lia. now apply mismatch_finite.
  - intros Hall. f_equal. apply Hb. intros i Hi.
    rewrite !Hnth by lia. apply mismatch_finite; [exact Ht|]. apply Hall. lia.
Qed.

Lemma check_accuracy_finite_witness :
  exists t,
    tolerance 4 F.two = Fin t /\
    t = (if (4 =? 2)%Z then / 10 ^ 2 else / 10 ^ 4) * (if F.gtb F.two F.two then 5 else 1).
Proof.
  destruct (check_accuracy_finite 4 [5; 0; 10] [5; 0; 10] 3 F.two)
    as (t & Et & Hv & _); [reflexivity | reflexivity |].
  exists t. split; [exact Et | exact Hv].
Defined.

(** ** A launch on rows with padding *)

Local Close Scope R_scope.

(** a core whose row counter reaches a row that cannot be fetched returns
    no result *)
Lemma outer_loop_hits {Row Out : Type} (fetch : Z -> result Row)
    (body : Row -> Z -> Z -> result Out) td (fuel_in fuel : nat) i target ws :
  1 <= usedCoreNum td -> n td + usedCoreNum td <= 2 ^ 32 ->
  0 <= i <= target -> target < n td -> (target - i) mod usedCoreNum td = 0 ->
  (forall row, fetch target <> Ok row) ->
  outer_loop fetch body td fuel_in fuel i <> Ok ws.
Proof.
  intros Hc Hw Hi Ht Hm Hf. revert i ws Hi Hm.
  induction fuel as [|fuel IH]; intros i ws Hi Hm; [discriminate|].
  cbn [outer_loop]. destruct (Z.ltb_spec i (n td)) as [_ | G]; [|lia].
  destruct (Z.eq_dec i target) as [-> | Hne].
  - pose proof (Hf) as Hf'. destruct (fetch target) as [row| |]; cbn [bind];
      try discriminate. exfalso. exact (Hf' row eq_refl).
  - apply Z.mod_divide in Hm; [|lia]. destruct Hm as [q Hq].
    assert (1 <= q) by nia.
    destruct (fetch i) as [rowI| |]; cbn [bind]; try discriminate.
    destruct (inner_loop body td fuel_in rowI i (wrap32 (i + 1))) as [ws1| |];
      cbn [bind]; try discriminate.
    rewrite (wrap32_small (i + usedCoreNum td)) by lia.
    destruct (outer_loop fetch body td fuel_in fuel (i + usedCoreNum td))
      as [rest| |] eqn:E; cbn [bind]; try discriminate.
    exfalso. apply (IH (i + usedCoreNum td) rest); [nia | | exact E].
    replace (target - (i + usedCoreNum td)) with ((q - 1) * usedCoreNum td) by lia.
    apply Z.mod_mul. lia.
Qed.

Lemma mapM_Ok_inv {A B} (f : A -> result B) (l : list A) bs a :
  mapM f l = Ok bs -> In a l -> exists b, f a = Ok b.
Proof.
  revert bs. induction l as [|x l IH]; intros bs E Hin; [destruct Hin|].
  cbn [mapM] in E. destruct (f x) as [b| |] eqn:Ex; cbn [bind] in E; try discriminate.
  destruct (mapM f l) as [bs'| |]; cbn [bind] in E; try discriminate.
  destruct Hin as [<- | Hin]; [now exists b | now apply (IH bs')].
Qed.

Lemma mapM_returns {A B} (f : A -> result B) (l : list A) :
  (forall a, In a l -> f a <> OutOfFuel) -> mapM f l <> OutOfFuel.
Proof.
  induction l as [|x l IH]; intros H; cbn [mapM]; [discriminate|].
  pose proof (H x (or_introl eq_refl)) as Hx.
  destruct (f x) as [b| |]; cbn [bind]; try discriminate; try contradiction.
  assert (Hl : mapM f l <> OutOfFuel) by (apply IH; intros a Ha; apply H; now right).
  destruct (mapM f l); cbn [bind]; try discriminate; contradiction.
Qed.

(** Planner and engine together on 32-bit rows with padding: when the row
    byte size is not a multiple of 32 and the input has exactly [n * m]
    elements, [n >= 1], every launch reads outside the input: with any fuel
    above [n] its outcome is the out-of-bounds fault, never a list of
    writes. *)
Theorem padded_launch_out_of_bounds ctx total x :
  platformInfo ctx = Some total -> dtype ctx = DT_FLOAT ->
  1 <= total < 2 ^ 32 ->
  1 <= dim0 ctx -> 1 <= dim1 ctx ->
  (dim1 ctx * 4) mod 32 <> 0 -> dim1 ctx * 4 <= 2 ^ 32 - 32 ->
  dim0 ctx * dim1 ctx < 2 ^ 32 -> dim0 ctx + total <= 2 ^ 32 ->
  Z.of_nat (length x) = dim0 ctx * dim1 ctx ->
  exists td,
    TilingFunc ctx = Some td /\
    forall fuel, (Z.to_nat (dim0 ctx) < fuel)%nat ->
      launch fuel x (load_tiling td) = OutOfBounds.
Proof.
  intros Hp Hd Ht Hn Hm Hr Hb4 Hb Hw Hx.
  assert (Em : wrap32 (dim1 ctx) = dim1 ctx) by (apply wrap32_small; lia).
  assert (En : wrap32 (dim0 ctx) = dim0 ctx) by (apply wrap32_small; nia).
  pose proof (alignedRowLength_gt (dim1 ctx) ltac:(lia) Hr) as G.
  assert (Et : tileLength_of (dim1 ctx) 4 = Spec.alignedRowLength (dim1 ctx) 4)
    by (apply tileLength_of_spec; lia).
  set (td := mkTiling (dim0 ctx) (dim1 ctx)
               match attr_p ctx with Some v => v | None => F.two end
               (Spec.alignedRowLength (dim1 ctx) 4)
               (usedCoreNum_of (dim0 ctx) total) 1).
  assert (E : TilingFunc ctx = Some td).
  { unfold TilingFunc. rewrite Hp, Hd. cbn [typeSize_of].
    rewrite Em, En, Et, (wrap32_small total) by lia. reflexivity. }
  exists td. split; [exact E|]. intros fuel Hfuel.
  set (k := load_tiling td).
  assert (K1 : tileLength k = Spec.alignedRowLength (dim1 ctx) 4) by reflexivity.
  assert (K2 : m k = dim1 ctx) by reflexivity.
  assert (K3 : n k = dim0 ctx) by reflexivity.
  assert (K4 : usedCoreNum k = usedCoreNum_of (dim0 ctx) total) by reflexivity.
  assert (Hc : 1 <= usedCoreNum k <= total).
  { rewrite K4. unfold usedCoreNum_of. destruct (dim0 ctx <? total); lia. }
  assert (Fault : forall row, CopyRow x k (dim0 ctx - 1) <> Ok row).
  { intros row. rewrite CopyRow_fault; [discriminate|].
    rewrite K1, K2, Hx. rewrite wrap32_small by nia. lia. }
  assert (NotFuel : launch fuel x k <> OutOfFuel).
  { unfold launch. apply mapM_returns. intros u Hu. apply In_zrange in Hu.
    unfold Process, loop_nest. destruct (u >=? usedCoreNum k); [discriminate|].
    apply outer_loop_returns; try (rewrite ?K3; lia).
    - apply CopyRow_returns.
    - apply ComputeAndSave_returns. }
  destruct (launch fuel x k) as [writes| |] eqn:L; try reflexivity; try contradiction.
  exfalso. unfold launch in L.
  set (u0 := (dim0 ctx - 1) mod usedCoreNum k).
  assert (Hu0 : 0 <= u0 < usedCoreNum k) by (apply Z.mod_pos_bound; lia).
  destruct (mapM_Ok_inv _ _ _ u0 L) as (ws & Ews); [apply In_zrange; lia|].
  unfold Process, loop_nest in Ews.
  destruct (Z.geb_spec u0 (usedCoreNum k)); [lia|].
  revert Ews. apply outer_loop_hits with (target := dim0 ctx - 1); try (rewrite ?K3; lia).
  - pose proof (Z.div_mod (dim0 ctx - 1) (usedCoreNum k) ltac:(lia)) as D.
    pose proof (Z.div_pos (dim0 ctx - 1) (usedCoreNum k) ltac:(lia) ltac:(lia)).
    fold u0 in D. nia.
  - pose proof (Z.div_mod (dim0 ctx - 1) (usedCoreNum k) ltac:(lia)) as D.
    fold u0 in D.
    replace (dim0 ctx - 1 - u0) with ((dim0 ctx - 1) / usedCoreNum k * usedCoreNum k)
      by lia.
    apply Z.mod_mul. lia.
  - exact Fault.
Qed.

Lemma padded_launch_out_of_bounds_witness :
  exists td,
    TilingFunc (mkContext None 4 2 (Some 8) DT_FLOAT) = Some td /\
    launch 5 (map Fin [0; 0; 3; 4; 0; 0; 6; 8]%R) (load_tiling td) = OutOfBounds.
Proof.
  destruct (padded_launch_out_of_bounds (mkContext None 4 2 (Some 8) DT_FLOAT) 8
              (map Fin [0; 0; 3; 4; 0; 0; 6; 8]%R))
    as (td & E & L);
    [ reflexivity | reflexivity | lia | cbn; lia | cbn; lia | vm_compute; discriminate
    | cbn; lia | cbn; lia | cbn; lia | reflexivity | ].
  exists td. split; [exact E|]. apply L. cbn. lia.
Defined.
